(** * Crossword CSP solver (generate.py): shallow embedding and verification

    The development follows [src/generate.py], class [CrosswordCreator]:
    node consistency, [revise], [ac3], [consistent], the two ordering
    heuristics and [backtrack].

    Conventions of the embedding.
    - A Python [str] is a [string]; [w[i]] is [str_index w i], which raises
      [IndexError] out of range (overlap indices are never negative).
    - A Python [set] is the list of its elements in iteration order.  The
      sets of the instance are arbitrary lists; a set the code builds is
      listed in the order the code fills it.  What is proved rests on
      membership only, never on that order.
    - [self.domains] is a finite map from variables to sets of words; a
      lookup of a missing key raises [KeyError].
    - [assignment] is a Python [dict], kept as an association list in
      insertion order (the order in which Python iterates it).
    - Every method returns an [outcome]: a value, a raised exception, or
      [OutOfFuel] for the two unbounded constructs (the [while] loop of [ac3]
      and the recursion of [backtrack]), which take a step budget.  The
      budget never changes a result ([solve_fuel_mono]), and [solve_fuel]
      is enough on every instance whose overlap indices lie within the
      variables ([solve_total]). *)

From Stdlib Require Import ZArith Ascii String.
From stdpp Require Import gmap strings list fin_maps.

Local Open Scope Z_scope.
Local Open Scope nat_scope.

(** ** Outcomes of Python code *)

Inductive exn := IndexError | KeyError.

Inductive outcome (A : Type) : Type :=
| Ok (a : A)
| Raise (e : exn)
| OutOfFuel.
Arguments Ok {A} a.
Arguments Raise {A} e.
Arguments OutOfFuel {A}.

Global Instance outcome_ret : MRet outcome := λ A a, Ok a.
Global Instance outcome_bind : MBind outcome := λ A B k m,
  match m with
  | Ok a => k a
  | Raise e => Raise e
  | OutOfFuel => OutOfFuel
  end.

(** An optional value that must be present: [d[k]] on a dictionary. *)
Definition or_raise {A} (e : exn) (o : option A) : outcome A :=
  match o with
  | Some a => Ok a
  | None => Raise e
  end.

(** ** Data model *)

(** [crossword.Variable]: a slot of the grid. *)
Inductive Direction := ACROSS | DOWN.

Module Var.
Record t := mk { i : nat; j : nat; direction : Direction; length : nat }.
End Var.

Global Instance Direction_eq_dec : EqDecision Direction.
Proof. solve_decision. Defined.

Global Instance Direction_countable : Countable Direction :=
  inj_countable'
    (λ d, match d with ACROSS => true | DOWN => false end)
    (λ b : bool, if b then ACROSS else DOWN)
    (λ d, match d with ACROSS => eq_refl | DOWN => eq_refl end).

Global Instance Var_eq_dec : EqDecision Var.t.
Proof. solve_decision. Defined.

Global Instance Var_countable : Countable Var.t :=
  inj_countable'
    (λ v, (Var.i v, Var.j v, Var.direction v, Var.length v))
    (λ '(a, b, d, n), Var.mk a b d n)
    (λ v, match v with Var.mk _ _ _ _ => eq_refl end).

(** Python [str]. *)
Abbreviation str := string (only parsing).
Abbreviation arc := (Var.t * Var.t)%type (only parsing).

(** Modelled from the spec: [crossword.Crossword] (crossword.py is not part of
    the sources).  The instance supplies the set of variables, the vocabulary
    and "a total function overlap(x, y) -> Option<(i, j)>". *)
Record Crossword := {
  variables : list Var.t;
  words : list str;
  overlaps : Var.t → Var.t → option (nat * nat)
}.

(** [self.domains]. *)
Abbreviation Domains := (gmap Var.t (list str)) (only parsing).

(** [assignment]: association list in insertion order. *)
Abbreviation Assignment := (list (Var.t * str)) (only parsing).

(** ** Strings and dictionaries *)

(** [w[i]] *)
Definition str_index (w : str) (i : nat) : outcome ascii :=
  or_raise IndexError (String.get i w).

(** [k in d] is [k ∈ dict_keys d]. *)
Definition dict_keys {K V} (d : list (K * V)) : list K := d.*1.
Definition dict_values {K V} (d : list (K * V)) : list V := d.*2.

Fixpoint dict_lookup {K V} `{EqDecision K} (k : K) (d : list (K * V)) : option V :=
  match d with
  | [] => None
  | (k', v) :: d' => if decide (k' = k) then Some v else dict_lookup k d'
  end.

(** [d[k]] *)
Definition dict_get {K V} `{EqDecision K} (k : K) (d : list (K * V)) : outcome V :=
  or_raise KeyError (dict_lookup k d).

(** [d[k] = v]: an existing key keeps its position, a new key goes last. *)
Fixpoint dict_set {K V} `{EqDecision K} (k : K) (v : V) (d : list (K * V))
  : list (K * V) :=
  match d with
  | [] => [(k, v)]
  | (k', v') :: d' =>
      if decide (k' = k) then (k, v) :: d' else (k', v') :: dict_set k v d'
  end.

(** [del d[k]] *)
Definition dict_del {K V} `{EqDecision K} (k : K) (d : list (K * V))
  : outcome (list (K * V)) :=
  if decide (k ∈ dict_keys d)
  then Ok (filter (λ kv, kv.1 ≠ k) d)
  else Raise KeyError.

(** [self.domains[v]] *)
Definition domain_get (v : Var.t) (domains : Domains) : outcome (list str) :=
  or_raise KeyError (domains !! v).

(** [s.add(x)] on a set. *)
Definition set_add {A} `{EqDecision A} (x : A) (s : list A) : list A :=
  if decide (x ∈ s) then s else s ++ [x].

Section CrosswordCreator.

Context (crossword : Crossword).

(** Modelled from the spec: [Crossword.neighbors] (crossword.py is not part
    of the sources): "the set of variables overlapping a given variable;
    derived from the overlap relation". *)
Definition neighbors (var : Var.t) : list Var.t :=
  filter (λ v, v ≠ var ∧ is_Some (overlaps crossword v var))
         (variables crossword).

(** [__init__]: every variable starts with a copy of the vocabulary. *)
Definition init_domains : Domains :=
  list_to_map ((λ var, (var, words crossword)) <$> variables crossword).

(** ** Node consistency *)

Definition enforce_node_consistency (domains : Domains) : Domains :=
  map_imap
    (λ var ws, Some (filter (λ w, String.length w = Var.length var) ws))
    domains.

(** ** Arc consistency *)

(** [any(word_x[i] == word_y[j] for word_y in dy)] *)
Fixpoint any_match (word_x : str) (i j : nat) (dy : list str) : outcome bool :=
  match dy with
  | [] => Ok false
  | word_y :: dy' =>
      cx ← str_index word_x i;
      cy ← str_index word_y j;
      if decide (cx = cy) then Ok true else any_match word_x i j dy'
  end.

(** The [for word_x in self.domains[x]] loop of [revise]. *)
Fixpoint revise_loop (i j : nat) (y : Var.t) (domains : Domains)
    (dx : list str) (words_to_remove : list str) (revised : bool)
  : outcome (list str * bool) :=
  match dx with
  | [] => Ok (words_to_remove, revised)
  | word_x :: dx' =>
      dy ← domain_get y domains;
      supported ← any_match word_x i j dy;
      if supported : bool
      then revise_loop i j y domains dx' words_to_remove revised
      else revise_loop i j y domains dx' (set_add word_x words_to_remove) true
  end.

Definition revise (x y : Var.t) (domains : Domains) : outcome (bool * Domains) :=
  match overlaps crossword x y with
  | None => Ok (false, domains)
  | Some (i, j) =>
      dx ← domain_get x domains;
      '(words_to_remove, revised) ← revise_loop i j y domains dx [] false;
      Ok (revised, <[x := filter (λ w, w ∉ words_to_remove) dx]> domains)
  end.

(** The initial queue when [arcs is None]. *)
Definition all_arcs : list arc :=
  x ← variables crossword; y ← neighbors x; [(x, y)].

(** The [while queue] loop of [ac3]; [fuel] bounds the number of iterations. *)
Fixpoint ac3_loop (fuel : nat) (queue : list arc) (domains : Domains)
  : outcome (bool * Domains) :=
  match queue with
  | [] => Ok (true, domains)
  | (x, y) :: queue' =>
      match fuel with
      | 0 => OutOfFuel
      | S fuel' =>
          '(revised, domains') ← revise x y domains;
          if revised : bool then
            dx ← domain_get x domains';
            if decide (List.length dx = 0) then Ok (false, domains')
            else ac3_loop fuel'
                   (queue' ++ ((λ z, (z, x)) <$> filter (λ z, z ≠ y) (neighbors x)))
                   domains'
          else ac3_loop fuel' queue' domains'
      end
  end.

Definition ac3 (fuel : nat) (arcs : option (list arc)) (domains : Domains)
  : outcome (bool * Domains) :=
  let queue := match arcs with None => all_arcs | Some arcs => arcs end in
  ac3_loop fuel queue domains.

(** ** Assignments *)

(** [all(var in assignment for var in self.crossword.variables)] *)
Definition assignment_complete (assignment : Assignment) : bool :=
  forallb (λ var, bool_decide (var ∈ dict_keys assignment)) (variables crossword).

(** The loop [for var, word in assignment.items()] of [consistent]:
    [false] when it returns False, [true] when it runs to its end. *)
Fixpoint lengths_match (items : list (Var.t * str)) : bool :=
  match items with
  | [] => true
  | (var, word) :: items' =>
      if decide (String.length word ≠ Var.length var) then false
      else lengths_match items'
  end.

(** The loop [for var2 in assignment] of [consistent] for a fixed [var1]:
    [Ok false] when it returns False, [Ok true] when it runs to its end. *)
Fixpoint no_conflict_with (assignment : Assignment) (var1 : Var.t)
    (vars2 : list Var.t) : outcome bool :=
  match vars2 with
  | [] => Ok true
  | var2 :: vars2' =>
      if decide (var1 ≠ var2) then
        match overlaps crossword var1 var2 with
        | Some (i, j) =>
            w1 ← dict_get var1 assignment;
            c1 ← str_index w1 i;
            w2 ← dict_get var2 assignment;
            c2 ← str_index w2 j;
            if decide (c1 ≠ c2) then Ok false
            else no_conflict_with assignment var1 vars2'
        | None => no_conflict_with assignment var1 vars2'
        end
      else no_conflict_with assignment var1 vars2'
  end.

(** The loop [for var1 in assignment] of [consistent]. *)
Fixpoint no_conflicts (assignment : Assignment) (vars1 : list Var.t)
  : outcome bool :=
  match vars1 with
  | [] => Ok true
  | var1 :: vars1' =>
      ok ← no_conflict_with assignment var1 (dict_keys assignment);
      if ok : bool then no_conflicts assignment vars1' else Ok false
  end.

Definition consistent (assignment : Assignment) : outcome bool :=
  if decide (List.length (remove_dups (dict_values assignment))
             ≠ List.length assignment)
  then Ok false
  else if lengths_match assignment
  then no_conflicts assignment (dict_keys assignment)
  else Ok false.

(** ** Ordering heuristics *)

(** The loop [for neighbor_word in self.domains[neighbor]]. *)
Fixpoint count_conflicts (word : str) (i j : nat) (dn : list str)
    (count : nat) : outcome nat :=
  match dn with
  | [] => Ok count
  | neighbor_word :: dn' =>
      c ← str_index word i;
      c' ← str_index neighbor_word j;
      count_conflicts word i j dn' (if decide (c ≠ c') then count + 1 else count)
  end.

(** The loop [for neighbor in unassigned_neighbors]. *)
Fixpoint count_ruled_out (var : Var.t) (word : str) (domains : Domains)
    (unassigned_neighbors : list Var.t) (count : nat) : outcome nat :=
  match unassigned_neighbors with
  | [] => Ok count
  | neighbor :: rest =>
      match overlaps crossword var neighbor with
      | Some (i, j) =>
          dn ← domain_get neighbor domains;
          count' ← count_conflicts word i j dn count;
          count_ruled_out var word domains rest count'
      | None => count_ruled_out var word domains rest count
      end
  end.

(** The loop [for word in self.domains[var]] filling [constraints]. *)
Fixpoint fill_constraints (var : Var.t) (domains : Domains)
    (unassigned_neighbors : list Var.t) (dv : list str)
    (constraints : gmap str nat) : outcome (gmap str nat) :=
  match dv with
  | [] => Ok constraints
  | word :: dv' =>
      count ← count_ruled_out var word domains unassigned_neighbors 0;
      fill_constraints var domains unassigned_neighbors dv'
        (<[word := count]> constraints)
  end.

(** [sorted(l, key=...)]: the keys are computed first, then the list is
    sorted by a stable sort. *)
Fixpoint insert_by_key {A} (x : nat * A) (l : list (nat * A)) : list (nat * A) :=
  match l with
  | [] => [x]
  | y :: l' => if decide (x.1 ≤ y.1) then x :: y :: l' else y :: insert_by_key x l'
  end.

Definition sort_by_key {A} (l : list (nat * A)) : list (nat * A) :=
  foldr insert_by_key [] l.

Fixpoint constraint_keys (constraints : gmap str nat) (dv : list str)
  : outcome (list (nat * str)) :=
  match dv with
  | [] => Ok []
  | word :: dv' =>
      k ← or_raise KeyError (constraints !! word);
      ks ← constraint_keys constraints dv';
      Ok ((k, word) :: ks)
  end.

Definition order_domain_values (var : Var.t) (assignment : Assignment)
    (domains : Domains) : outcome (list str) :=
  let unassigned_neighbors :=
    filter (λ n, n ∉ dict_keys assignment) (neighbors var) in
  dv ← domain_get var domains;
  constraints ← fill_constraints var domains unassigned_neighbors dv ∅;
  dv' ← domain_get var domains;
  keyed ← constraint_keys constraints dv';
  Ok ((sort_by_key keyed).*2).

(** The key of [select_unassigned_variable]:
    [(len(self.domains[var]), -len(self.crossword.neighbors(var)))]. *)
Definition select_key (domains : Domains) (var : Var.t) : outcome (Z * Z) :=
  dv ← domain_get var domains;
  Ok (Z.of_nat (List.length dv), (- Z.of_nat (List.length (neighbors var)))%Z).

(** [<] on pairs of integers. *)
Definition tuple_lt (k1 k2 : Z * Z) : Prop :=
  (k1.1 < k2.1 ∨ (k1.1 = k2.1 ∧ k1.2 < k2.2))%Z.

Global Instance tuple_lt_dec k1 k2 : Decision (tuple_lt k1 k2).
Proof. unfold tuple_lt. apply _. Defined.

(** [min(items, key=key)] after its first item: the first item whose key is
    smallest is kept. *)
Fixpoint min_loop {A} (key : A → outcome (Z * Z)) (best : A) (best_key : Z * Z)
    (items : list A) : outcome A :=
  match items with
  | [] => Ok best
  | item :: items' =>
      k ← key item;
      if decide (tuple_lt k best_key) then min_loop key item k items'
      else min_loop key best best_key items'
  end.

Definition select_unassigned_variable (assignment : Assignment)
    (domains : Domains) : outcome (option Var.t) :=
  let unassigned :=
    filter (λ var, var ∉ dict_keys assignment) (variables crossword) in
  match unassigned with
  | [] => Ok None
  | first :: rest =>
      k ← select_key domains first;
      var ← min_loop (select_key domains) first k rest;
      Ok (Some var)
  end.

(** ** Backtracking search *)

(** What a call of [backtrack] leaves behind: the value it returns ([Some]
    of the assignment object, or [None]), the contents of the [assignment]
    dictionary at return, and the number of invocations of [backtrack] the
    call made, itself included (a ghost counter: the source keeps none). *)
Record Backtracked := {
  returned : option Assignment;
  assignment_at_return : Assignment;
  invocations : nat
}.

(** The loop [for value in self.order_domain_values(var, assignment)];
    [recurse] is the recursive call. *)
Fixpoint backtrack_values (recurse : Assignment → outcome Backtracked)
    (var : Var.t) (values : list str) (assignment : Assignment) (calls : nat)
  : outcome Backtracked :=
  match values with
  | [] => Ok {| returned := None; assignment_at_return := assignment;
                invocations := calls |}
  | value :: values' =>
      let assignment1 := dict_set var value assignment in
      ok ← consistent assignment1;
      if ok : bool then
        r ← recurse assignment1;
        match returned r with
        | Some result =>
            Ok {| returned := Some result;
                  assignment_at_return := assignment_at_return r;
                  invocations := calls + invocations r |}
        | None =>
            assignment2 ← dict_del var (assignment_at_return r);
            backtrack_values recurse var values' assignment2
              (calls + invocations r)
        end
      else
        assignment2 ← dict_del var assignment1;
        backtrack_values recurse var values' assignment2 calls
  end.

(** [fuel] bounds the depth of the recursion. *)
Fixpoint backtrack (fuel : nat) (domains : Domains) (assignment : Assignment)
  : outcome Backtracked :=
  match fuel with
  | 0 => OutOfFuel
  | S fuel' =>
      if assignment_complete assignment then
        Ok {| returned := Some assignment; assignment_at_return := assignment;
              invocations := 1 |}
      else
        var ← select_unassigned_variable assignment domains;
        match var with
        | None =>
            (* [order_domain_values(None, ...)]: no such key in the problem
               instance.  Never reached, see [select_unassigned_variable_None]. *)
            Raise KeyError
        | Some var =>
            values ← order_domain_values var assignment domains;
            backtrack_values (backtrack fuel' domains) var values assignment 1
        end
  end.

(** ** The solver *)

(** What [solve] leaves behind: its return value, [self.domains], and the
    number of invocations of [backtrack]. *)
Record Solved := {
  solution : option Assignment;
  final_domains : Domains;
  backtrack_invocations : nat
}.

(** [solve] on a creator whose domains are [domains]; the return value of
    [self.ac3()] is dropped. *)
Definition solve (fuel : nat) (domains : Domains) : outcome Solved :=
  let domains1 := enforce_node_consistency domains in
  '(_, domains2) ← ac3 fuel None domains1;
  r ← backtrack fuel domains2 [];
  Ok {| solution := returned r; final_domains := domains2;
        backtrack_invocations := invocations r |}.

(** [CrosswordCreator(crossword).solve()] *)
Definition create_and_solve (fuel : nat) : outcome Solved :=
  solve fuel init_domains.

End CrosswordCreator.

(** ** Sample instances *)

Module Samples.

Definition A : Var.t := Var.mk 0 0 ACROSS 3.
Definition B : Var.t := Var.mk 0 1 DOWN 3.

(** Two crossing slots: letter 1 of [A] is letter 0 of [B]. *)
Definition cross_overlaps (x y : Var.t) : option (nat * nat) :=
  if decide (x = A ∧ y = B) then Some (1, 0)
  else if decide (x = B ∧ y = A) then Some (0, 1)
  else None.

Definition cat_car_art : Crossword :=
  {| variables := [A; B]; words := ["CAT"; "CAR"; "ART"]%string;
     overlaps := cross_overlaps |}.

Definition cat_dog : Crossword :=
  {| variables := [A; B]; words := ["CAT"; "DOG"]%string;
     overlaps := cross_overlaps |}.

End Samples.


(** * Verification *)

(** ** Outcomes *)

Lemma bind_Ok {A B} (m : outcome A) (k : A → outcome B) (b : B) :
  m ≫= k = Ok b → ∃ a, m = Ok a ∧ k a = Ok b.
Proof. destruct m; simpl; [eauto | discriminate..]. Qed.

Lemma or_raise_Ok {A} (e : exn) (o : option A) (a : A) :
  or_raise e o = Ok a ↔ o = Some a.
Proof. destruct o; simpl; split; congruence. Qed.

(** Splits a hypothesis [m ≫= k = Ok b] into its two steps. *)
Ltac bind_inv H :=
  let a := fresh "a" in
  let Ha := fresh "Hstep" in
  apply bind_Ok in H as (a & Ha & H); simpl in H.

(** ** Lists *)

Lemma list_filter_ext_in {A} (P Q : A → Prop)
    `{∀ x, Decision (P x)} `{∀ x, Decision (Q x)} (l : list A) :
  (∀ x, x ∈ l → (P x ↔ Q x)) → filter P l = filter Q l.
Proof.
  induction l as [|a l IH]; intros HPQ; [done|].
  rewrite !filter_cons.
  rewrite IH by (intros x Hx; apply HPQ; by right).
  destruct (decide (P a)) as [Ha|Ha]; rewrite (HPQ a) in Ha by left;
    [rewrite decide_True | rewrite decide_False]; done.
Qed.

Lemma length_filter_Exists {A} (P : A → Prop) `{∀ x, Decision (P x)} (l : list A) :
  Exists (λ x, ¬ P x) l → List.length (filter P l) < List.length l.
Proof.
  intros (x & Hx & HP)%Exists_exists. by eapply length_filter_lt.
Qed.

Lemma filter_all {A} (P : A → Prop) `{∀ x, Decision (P x)} (l : list A) :
  Forall P l → filter P l = l.
Proof.
  induction 1 as [|a l Ha _ IH]; [done|].
  by rewrite filter_cons_True, IH.
Qed.

(** ** Letters *)

(** [w[i] == w'[j]], both letters being there. *)
Definition letters_agree (w : str) (i : nat) (w' : str) (j : nat) : Prop :=
  ∃ c, String.get i w = Some c ∧ String.get j w' = Some c.

(** [w] has a partner in [dy] for the overlap [(i, j)]. *)
Definition supported (i j : nat) (dy : list str) (w : str) : Prop :=
  Exists (λ w', letters_agree w i w' j) dy.

Global Instance letters_agree_dec w i w' j : Decision (letters_agree w i w' j).
Proof.
  unfold letters_agree.
  destruct (String.get i w) as [c|], (String.get j w') as [c'|].
  - destruct (decide (c = c')) as [->|Hne].
    + left. eauto.
    + right. intros (c0 & [= <-] & [= <-]). done.
  - right. intros (? & _ & [=]).
  - right. intros (? & [=] & _).
  - right. intros (? & [=] & _).
Defined.

Global Instance supported_dec i j dy w : Decision (supported i j dy w).
Proof. unfold supported. apply _. Defined.

Lemma letters_agree_sym w i w' j : letters_agree w i w' j → letters_agree w' j w i.
Proof. intros (c & ? & ?). exists c. done. Qed.

Lemma get_Some_lt (w : str) (i : nat) :
  is_Some (String.get i w) ↔ i < String.length w.
Proof.
  revert i. induction w as [|a w IH]; intros [|i]; simpl.
  - split; [intros [? [=]] | lia].
  - split; [intros [? [=]] | lia].
  - split; [lia | eauto].
  - rewrite IH. lia.
Qed.

Lemma letters_agree_lt w i w' j :
  letters_agree w i w' j → i < String.length w ∧ j < String.length w'.
Proof. intros (c & ? & ?). rewrite <- !get_Some_lt. eauto. Qed.

Lemma str_index_Ok w i c : str_index w i = Ok c ↔ String.get i w = Some c.
Proof. apply or_raise_Ok. Qed.

Lemma str_index_lt w i : i < String.length w → ∃ c, str_index w i = Ok c.
Proof.
  intros [c Hc]%get_Some_lt. exists c. by apply str_index_Ok.
Qed.

(** The set [self.domains[v]], empty when [v] is no key. *)
Definition words_of (domains : gmap Var.t (list str)) (v : Var.t) : list str :=
  default [] (domains !! v).

Lemma domain_get_Ok v (domains : gmap Var.t (list str)) dv :
  domain_get v domains = Ok dv ↔ domains !! v = Some dv.
Proof. apply or_raise_Ok. Qed.

Lemma words_of_Some v (domains : gmap Var.t (list str)) dv :
  domains !! v = Some dv → words_of domains v = dv.
Proof. unfold words_of. by intros ->. Qed.

Lemma words_of_insert_eq v dv (domains : gmap Var.t (list str)) :
  words_of (<[v := dv]> domains) v = dv.
Proof. unfold words_of. by rewrite lookup_insert_eq. Qed.

Lemma words_of_insert_ne v v' dv (domains : gmap Var.t (list str)) :
  v ≠ v' → words_of (<[v := dv]> domains) v' = words_of domains v'.
Proof. intros. unfold words_of. by rewrite lookup_insert_ne. Qed.

(** ** [revise] *)

Lemma any_match_spec word_x i j dy b :
  any_match word_x i j dy = Ok b → (b = true ↔ supported i j dy word_x).
Proof.
  unfold supported. revert b. induction dy as [|word_y dy IH]; intros b H; simpl in H.
  - injection H as <-. rewrite Exists_nil. done.
  - bind_inv H. bind_inv H. apply str_index_Ok in Hstep, Hstep0.
    rewrite Exists_cons. case_decide as Hc.
    + injection H as <-. subst. split; [|done]. intros _. left. by eexists.
    + rewrite (IH _ H). split; [by right|].
      intros [(c & Hc1 & Hc2)|]; [congruence | done].
Qed.

Lemma any_match_total word_x i j dy :
  i < String.length word_x →
  Forall (λ w', j < String.length w') dy →
  ∃ b, any_match word_x i j dy = Ok b.
Proof.
  intros Hi. induction 1 as [|word_y dy Hj _ IH]; simpl; [eauto|].
  destruct (str_index_lt _ _ Hi) as [cx ->], (str_index_lt _ _ Hj) as [cy ->].
  simpl. case_decide; eauto.
Qed.

Section Revise.

Context (crossword : Crossword).

Lemma revise_loop_spec i j y (domains : gmap Var.t (list str)) dx :
  ∀ rm rev rm' rev',
    revise_loop i j y domains dx rm rev = Ok (rm', rev') →
    (∀ w, w ∈ rm' ↔ w ∈ rm ∨ (w ∈ dx ∧ ¬ supported i j (words_of domains y) w))
    ∧ (rev' = true ↔
       rev = true ∨ Exists (λ w, ¬ supported i j (words_of domains y) w) dx).
Proof.
  induction dx as [|word_x dx IH]; intros rm rev rm' rev' H; simpl in H.
  - injection H as <- <-. split.
    + intros w. rewrite elem_of_nil. naive_solver.
    + rewrite Exists_nil. naive_solver.
  - bind_inv H. bind_inv H. apply domain_get_Ok in Hstep.
    apply any_match_spec in Hstep0. rewrite (words_of_Some _ _ _ Hstep).
    setoid_rewrite elem_of_cons. rewrite Exists_cons.
    destruct a0.
    + assert (supported i j a word_x) as Hs by by apply Hstep0.
      apply IH in H as [H1 H2]. rewrite (words_of_Some _ _ _ Hstep) in H1, H2.
      split; [intros w; rewrite H1|rewrite H2]; naive_solver.
    + assert (¬ supported i j a word_x) as Hs by (rewrite <- Hstep0; done).
      apply IH in H as [H1 H2]. rewrite (words_of_Some _ _ _ Hstep) in H1, H2.
      split.
      * intros w. rewrite H1. unfold set_add. case_decide.
        -- naive_solver.
        -- rewrite elem_of_app, list_elem_of_singleton. naive_solver.
      * rewrite H2. naive_solver.
Qed.

(** The effect of [revise] on [self.domains[x]] when there is an overlap. *)
Lemma revise_overlap x y i j (domains domains' : gmap Var.t (list str)) b :
  overlaps crossword x y = Some (i, j) →
  revise crossword x y domains = Ok (b, domains') →
  ∃ dx, domains !! x = Some dx
    ∧ domains' = <[x := filter (supported i j (words_of domains y)) dx]> domains
    ∧ (b = true ↔ Exists (λ w, ¬ supported i j (words_of domains y) w) dx).
Proof.
  intros Ho H. unfold revise in H. rewrite Ho in H.
  bind_inv H. apply domain_get_Ok in Hstep. bind_inv H.
  destruct a0 as [rm rev]. injection H as <- <-.
  apply revise_loop_spec in Hstep0 as [H1 H2].
  exists a. split; [done|]. split.
  - f_equal. apply list_filter_ext_in. intros w Hw.
    rewrite H1, elem_of_nil.
    destruct (decide (supported i j (words_of domains y) w)); naive_solver.
  - rewrite H2. naive_solver.
Qed.


Lemma revise_no_overlap x y (domains domains' : gmap Var.t (list str)) b :
  overlaps crossword x y = None →
  revise crossword x y domains = Ok (b, domains') →
  b = false ∧ domains' = domains.
Proof. unfold revise. intros ->. by intros [= <- <-]. Qed.

(** [revise] only touches the domain of [x], and only shrinks it. *)
Lemma revise_words_of x y (domains domains' : gmap Var.t (list str)) b :
  revise crossword x y domains = Ok (b, domains') →
  (∀ v, v ≠ x → domains' !! v = domains !! v)
  ∧ (∀ v, is_Some (domains' !! v) ↔ is_Some (domains !! v))
  ∧ (∀ v, words_of domains' v ⊆ words_of domains v).
Proof.
  intros H. destruct (overlaps crossword x y) as [[i j]|] eqn:Ho.
  - destruct (revise_overlap _ _ _ _ _ _ _ Ho H) as (dx & Hdx & -> & _).
    split; [|split].
    + intros v Hv. by rewrite lookup_insert_ne.
    + intros v. destruct (decide (x = v)) as [->|Hv].
      * rewrite lookup_insert_eq, Hdx. split; eauto.
      * by rewrite lookup_insert_ne.
    + intros v. destruct (decide (x = v)) as [->|Hv].
      * rewrite words_of_insert_eq, (words_of_Some _ _ _ Hdx).
        intros w [_ Hw]%list_elem_of_filter. done.
      * by rewrite words_of_insert_ne.
  - apply revise_no_overlap in H as [_ ->]; done.
Qed.

(** When [revise] reports no revision, nothing has changed. *)
Lemma revise_false x y (domains domains' : gmap Var.t (list str)) :
  revise crossword x y domains = Ok (false, domains') → domains' = domains.
Proof.
  intros H. destruct (overlaps crossword x y) as [[i j]|] eqn:Ho.
  - destruct (revise_overlap _ _ _ _ _ _ _ Ho H) as (dx & Hdx & -> & Hb).
    rewrite filter_all; [by apply insert_id|].
    apply Forall_forall. intros w Hw.
    destruct (decide (supported i j (words_of domains y) w)) as [|Hn]; [done|].
    assert (false = true) as [=]. apply Hb, Exists_exists. eauto.
  - by apply revise_no_overlap in H as [_ ->].
Qed.

(** When [revise] reports a revision, the domain of [x] got shorter. *)
Lemma revise_true x y (domains domains' : gmap Var.t (list str)) :
  revise crossword x y domains = Ok (true, domains') →
  List.length (words_of domains' x) < List.length (words_of domains x).
Proof.
  intros H. destruct (overlaps crossword x y) as [[i j]|] eqn:Ho.
  - destruct (revise_overlap _ _ _ _ _ _ _ Ho H) as (dx & Hdx & -> & Hb).
    rewrite words_of_insert_eq, (words_of_Some _ _ _ Hdx).
    apply length_filter_Exists. by apply Hb.
  - by apply revise_no_overlap in H as [[=] _].
Qed.

End Revise.

(** ** Domains only shrink *)

(** [domains'] has the keys of [domains], and each of its sets is included
    in the set [domains] has for that variable. *)
Definition domains_le (domains' domains : gmap Var.t (list str)) : Prop :=
  ∀ v, option_Forall2 (⊆) (domains' !! v) (domains !! v).

Lemma domains_le_alt (domains' domains : gmap Var.t (list str)) :
  domains_le domains' domains ↔
  (∀ v, is_Some (domains' !! v) ↔ is_Some (domains !! v))
  ∧ (∀ v, words_of domains' v ⊆ words_of domains v).
Proof.
  unfold domains_le, words_of. split.
  - intros H. split; intros v; specialize (H v);
      destruct H; simpl; rewrite ?is_Some_alt; set_solver.
  - intros [H1 H2] v. specialize (H1 v). specialize (H2 v).
    destruct (domains' !! v), (domains !! v); simpl in *;
      rewrite ?is_Some_alt in H1; try (by constructor); naive_solver.
Qed.

Global Instance domains_le_refl : Reflexive domains_le.
Proof. intros D v. destruct (D !! v); by constructor. Qed.

Global Instance domains_le_trans : Transitive domains_le.
Proof.
  intros D1 D2 D3 H12 H23. apply domains_le_alt in H12 as [? ?], H23 as [? ?].
  apply domains_le_alt. split; intros v; [naive_solver | set_solver].
Qed.

Section Ac3.

Context (crossword : Crossword).

Lemma revise_le x y (domains domains' : gmap Var.t (list str)) b :
  revise crossword x y domains = Ok (b, domains') → domains_le domains' domains.
Proof.
  intros (_ & ? & ?)%revise_words_of. by apply domains_le_alt.
Qed.

(** The runs of the [while] loop of [ac3] that return, as a relation: from
    the queue and domains at the loop head to the returned value and the
    domains at return. *)
Inductive ac3_run : list arc → gmap Var.t (list str) → bool → gmap Var.t (list str) → Prop :=
| ac3_run_done domains :
    ac3_run [] domains true domains
| ac3_run_unrevised x y queue domains b domains' :
    revise crossword x y domains = Ok (false, domains) →
    ac3_run queue domains b domains' →
    ac3_run ((x, y) :: queue) domains b domains'
| ac3_run_emptied x y queue domains domains1 :
    revise crossword x y domains = Ok (true, domains1) →
    domains1 !! x = Some [] →
    ac3_run ((x, y) :: queue) domains false domains1
| ac3_run_revised x y queue domains domains1 dx b domains' :
    revise crossword x y domains = Ok (true, domains1) →
    domains1 !! x = Some dx →
    dx ≠ [] →
    ac3_run (queue ++ ((λ z, (z, x)) <$> filter (λ z, z ≠ y) (neighbors crossword x)))
            domains1 b domains' →
    ac3_run ((x, y) :: queue) domains b domains'.

Lemma ac3_loop_run fuel : ∀ queue domains b domains',
  ac3_loop crossword fuel queue domains = Ok (b, domains') →
  ac3_run queue domains b domains'.
Proof.
  induction fuel as [|fuel IH]; intros [|[x y] queue] domains b domains' H;
    simpl in H; try discriminate.
  - injection H as <- <-. constructor.
  - injection H as <- <-. constructor.
  - bind_inv H. destruct a as [[] domains1].
    + bind_inv H. apply domain_get_Ok in Hstep0. case_decide as Hlen.
      * injection H as <- <-. apply nil_length_inv in Hlen as ->.
        by eapply ac3_run_emptied.
      * eapply ac3_run_revised; eauto. by intros ->.
    + pose proof (revise_false _ _ _ _ _ Hstep) as ->.
      eapply ac3_run_unrevised; eauto.
Qed.

Lemma ac3_run_le queue domains b domains' :
  ac3_run queue domains b domains' → domains_le domains' domains.
Proof.
  induction 1 as [| | x y queue domains domains1 Hr _
                  | x y queue domains domains1 dx b domains' Hr _ _ _ IH].
  - done.
  - done.
  - by eapply revise_le.
  - etrans; [done|]. by eapply revise_le.
Qed.

(** C8. Arc-consistency monotonicity: a call of [revise], and a call of
    [ac3] on any initial arc list, whatever it returns, leaves every
    variable with a subset of the domain it had before; no word is added. *)
Theorem ac3_monotone :
  (∀ x y domains b domains',
     revise crossword x y domains = Ok (b, domains') →
     domains_le domains' domains
     ∧ ∀ v w, w ∈ words_of domains' v → w ∈ words_of domains v)
  ∧ (∀ fuel arcs domains b domains',
     ac3 crossword fuel arcs domains = Ok (b, domains') →
     domains_le domains' domains
     ∧ ∀ v w, w ∈ words_of domains' v → w ∈ words_of domains v).
Proof.
  split.
  - intros x y domains b domains' H%revise_le. split; [done|].
    apply domains_le_alt in H as [_ H]. intros v. apply H.
  - intros fuel arcs domains b domains' H%ac3_loop_run%ac3_run_le.
    split; [done|]. apply domains_le_alt in H as [_ H]. intros v. apply H.
Qed.


(** C5. Revise contract: [revise(x, y)] with overlap [(i, j)] removes from
    [domains[x]] exactly the words that have no partner in [domains[y]],
    touches no other domain, and returns True exactly when a word was
    removed; without an overlap it changes nothing and returns False. *)
Theorem revise_contract x y (domains domains' : gmap Var.t (list str)) b :
  revise crossword x y domains = Ok (b, domains') →
  match overlaps crossword x y with
  | Some (i, j) =>
      (∀ v, v ≠ x → domains' !! v = domains !! v)
      ∧ (∀ w, w ∈ words_of domains' x → w ∈ words_of domains x)
      ∧ (∀ w, w ∈ words_of domains x →
           (w ∉ words_of domains' x ↔
            ¬ ∃ w', w' ∈ words_of domains y ∧ letters_agree w i w' j))
      ∧ (b = true ↔ ∃ w, w ∈ words_of domains x ∧ w ∉ words_of domains' x)
  | None => domains' = domains ∧ b = false
  end.
Proof.
  intros H. destruct (overlaps crossword x y) as [[i j]|] eqn:Ho.
  - destruct (revise_overlap _ _ _ _ _ _ _ _ Ho H) as (dx & Hdx & -> & Hb).
    rewrite words_of_insert_eq, (words_of_Some _ _ _ Hdx).
    split; [|split; [|split]].
    + intros v Hv. by rewrite lookup_insert_ne.
    + intros w [_ Hw]%list_elem_of_filter. done.
    + intros w Hw. rewrite list_elem_of_filter.
      unfold supported. rewrite Exists_exists. naive_solver.
    + rewrite Hb, Exists_exists. setoid_rewrite list_elem_of_filter.
      naive_solver.
  - apply revise_no_overlap in H as [-> ->]; done.
Qed.

(** *** Soundness of [ac3] *)

(** The overlap relation is "queried symmetrically (overlap(x,y) and
    overlap(y,x) refer to the same cell with indices swapped)". *)
Definition symmetric_overlaps : Prop :=
  ∀ x y i j,
    x ∈ variables crossword → y ∈ variables crossword → x ≠ y →
    overlaps crossword x y = Some (i, j) → overlaps crossword y x = Some (j, i).

(** Every word of [x] has a partner in the domain of [y]. *)
Definition arc_consistent (domains : gmap Var.t (list str)) (x y : Var.t) : Prop :=
  ∀ i j, overlaps crossword x y = Some (i, j) →
    Forall (supported i j (words_of domains y)) (words_of domains x).

(** The arcs of the problem: the pairs [ac3] starts from. *)
Definition is_arc (a : arc) : Prop :=
  a.1 ∈ variables crossword ∧ a.2 ∈ neighbors crossword a.1.

Lemma elem_of_neighbors x y :
  y ∈ neighbors crossword x ↔
  y ∈ variables crossword ∧ y ≠ x ∧ is_Some (overlaps crossword y x).
Proof. unfold neighbors. rewrite list_elem_of_filter. naive_solver. Qed.

Lemma elem_of_all_arcs a : a ∈ all_arcs crossword ↔ is_arc a.
Proof.
  unfold all_arcs, is_arc. rewrite list_elem_of_bind. split.
  - intros (x & (y & Hy & Hxy)%list_elem_of_bind & Hx).
    apply list_elem_of_singleton in Hy as ->. done.
  - intros [Hx Hy]. exists a.1. split; [|done].
    apply list_elem_of_bind. exists a.2. split; [|done].
    destruct a. by apply list_elem_of_singleton.
Qed.

Lemma is_arc_sym x y : symmetric_overlaps → is_arc (x, y) → is_arc (y, x).
Proof.
  intros Hsym [Hx (Hy & Hne & [[j i] Ho])%elem_of_neighbors]. simpl in *.
  split; [done|]. apply elem_of_neighbors. simpl.
  split; [done|]. split; [done|]. erewrite Hsym; eauto.
Qed.

Lemma arc_consistent_ext (domains domains' : gmap Var.t (list str)) x y :
  words_of domains' x ⊆ words_of domains x →
  words_of domains' y = words_of domains y →
  arc_consistent domains x y → arc_consistent domains' x y.
Proof.
  intros Hx Hy H i j Ho. rewrite Hy. specialize (H i j Ho).
  rewrite Forall_forall in *. auto.
Qed.

Lemma ac3_run_sound queue domains b domains' :
  symmetric_overlaps →
  ac3_run queue domains b domains' →
  b = true →
  Forall is_arc queue →
  (∀ a, is_arc a → a ∈ queue ∨ arc_consistent domains a.1 a.2) →
  ∀ a, is_arc a → arc_consistent domains' a.1 a.2.
Proof.
  intros Hsym. induction 1 as [domains
    | x y queue domains b domains' Hr _ IH
    | | x y queue domains domains1 dx b domains' Hr Hdx Hne _ IH];
    intros Hb Hq Hinv; [| |done|].
  - intros a Ha. destruct (Hinv a Ha) as [[]%elem_of_nil|]; done.
  - apply Forall_cons in Hq as [Hxy Hq]. apply IH; [done..|].
    intros a Ha. destruct (Hinv a Ha) as [[->|]%elem_of_cons|]; auto.
    right. simpl. intros i j Ho.
    destruct (revise_overlap _ _ _ _ _ _ _ _ Ho Hr) as (dx & Hdx & _ & Hrev).
    rewrite (words_of_Some _ _ _ Hdx). apply Forall_forall. intros w Hw.
    destruct (decide (supported i j (words_of domains y) w)) as [|Hn]; [done|].
    assert (false = true) as [=]. apply Hrev, Exists_exists. eauto.
  - apply Forall_cons in Hq as [Hxy Hq].
    pose proof Hxy as [Hx (Hy & Hyx & [[j i] Hoyx])%elem_of_neighbors].
    simpl in Hx, Hy, Hyx, Hoyx.
    assert (overlaps crossword x y = Some (i, j)) as Hoxy by (apply Hsym; done).
    destruct (revise_overlap _ _ _ _ _ _ _ _ Hoxy Hr) as (dx0 & Hdx0 & -> & _).
    apply IH; [done| |]; clear IH.
    { apply Forall_app. split; [done|]. apply Forall_fmap, Forall_forall.
      intros z [Hzy Hz]%list_elem_of_filter. simpl.
      apply (is_arc_sym x z Hsym). done. }
    intros [a c] Ha. simpl.
    assert (c ≠ a) as Hca by (destruct Ha as [_ Hc]; apply elem_of_neighbors in Hc; tauto).
    destruct (decide (a = x)) as [->|Hax]; [destruct (decide (c = y)) as [->|Hcy]|
      destruct (decide (c = x)) as [->|Hcx]; [destruct (decide (a = y)) as [->|Hay]|]].
    + right. intros i' j' Ho'. rewrite Hoxy in Ho'. injection Ho' as <- <-.
      rewrite words_of_insert_eq, words_of_insert_ne by done.
      apply Forall_forall. by intros w [? _]%list_elem_of_filter.
    + destruct (Hinv (x, c) Ha) as [[[=]|Hin]%elem_of_cons|Hc]; [done| |].
      * left. apply elem_of_app. auto.
      * right. simpl in Hc. eapply arc_consistent_ext; [| |done].
        -- rewrite words_of_insert_eq, (words_of_Some _ _ _ Hdx0).
           by intros w [_ ?]%list_elem_of_filter.
        -- by rewrite words_of_insert_ne.
    + destruct (Hinv (y, x) Ha) as [[[=]|Hin]%elem_of_cons|Hc]; [done| |].
      * left. apply elem_of_app. auto.
      * right. simpl in *. intros j' i' Ho'. rewrite Hoyx in Ho'.
        injection Ho' as <- <-. specialize (Hc j i Hoyx).
        rewrite words_of_insert_eq, words_of_insert_ne by done.
        rewrite (words_of_Some _ _ _ Hdx0) in Hc.
        rewrite Forall_forall in *. intros w Hw.
        specialize (Hc w Hw). unfold supported in *. rewrite Exists_exists in *.
        destruct Hc as (w' & Hw' & Hagree). exists w'. split; [|done].
        apply list_elem_of_filter. split; [|done].
        apply Exists_exists. exists w. split; [done|].
        by apply letters_agree_sym.
    + left. apply elem_of_app. right. apply list_elem_of_fmap. exists a.
      split; [done|]. apply list_elem_of_filter. split; [done|].
      apply (is_arc_sym a x Hsym) in Ha. apply Ha.
    + destruct (Hinv (a, c) Ha) as [[[=]|Hin]%elem_of_cons|Hc]; [done| |].
      * left. apply elem_of_app. auto.
      * right. simpl in Hc. eapply arc_consistent_ext; [| |done].
        -- by rewrite words_of_insert_ne.
        -- by rewrite words_of_insert_ne.
Qed.

(** C4. Arc-consistency soundness: when [ac3()] with the default arc list
    returns True, then for all distinct variables [x], [y] whose overlap is
    [(i, j)], every word left in [domains[x]] has a partner [w'] in
    [domains[y]] with [w[i] == w'[j]]. *)
Theorem ac3_sound fuel (domains domains' : gmap Var.t (list str)) :
  symmetric_overlaps →
  ac3 crossword fuel None domains = Ok (true, domains') →
  ∀ x y i j,
    x ∈ variables crossword → y ∈ variables crossword → x ≠ y →
    overlaps crossword x y = Some (i, j) →
    ∀ w, w ∈ words_of domains' x →
      ∃ w', w' ∈ words_of domains' y ∧ letters_agree w i w' j.
Proof.
  intros Hsym H%ac3_loop_run x y i j Hx Hy Hxy Ho w Hw.
  assert (is_arc (x, y)) as Ha.
  { split; [done|]. apply elem_of_neighbors. simpl.
    split; [done|]. split; [done|]. erewrite Hsym; eauto. }
  pose proof (ac3_run_sound _ _ _ _ Hsym H eq_refl) as Hs.
  specialize (Hs ltac:(apply Forall_forall; intros ?; apply elem_of_all_arcs)).
  specialize (Hs ltac:(intros a ?; left; by apply elem_of_all_arcs) _ Ha i j Ho).
  rewrite Forall_forall in Hs. specialize (Hs w Hw).
  by apply Exists_exists in Hs.
Qed.

End Ac3.

(** ** Dictionaries *)

Section Dict.

Context {K V : Type} `{EqDecision K}.
Implicit Types (d : list (K * V)) (k : K) (v : V).

Lemma dict_lookup_elem d k v : dict_lookup k d = Some v → (k, v) ∈ d.
Proof.
  induction d as [|[k' v'] d IH]; simpl; [done|].
  case_decide as Hk.
  - intros [= <-]. subst. left.
  - intros. right. auto.
Qed.

Lemma dict_lookup_is_Some d k : is_Some (dict_lookup k d) ↔ k ∈ dict_keys d.
Proof.
  unfold dict_keys. induction d as [|[k' v'] d IH]; simpl.
  - rewrite elem_of_nil. split; [by intros [? ?]|done].
  - rewrite elem_of_cons. simpl. case_decide as Hk.
    + split; [auto|eauto].
    + rewrite IH. naive_solver.
Qed.

Lemma dict_lookup_NoDup d k v :
  NoDup (dict_keys d) → (k, v) ∈ d → dict_lookup k d = Some v.
Proof.
  unfold dict_keys. induction d as [|[k' v'] d IH]; simpl.
  - by intros _ ?%elem_of_nil.
  - intros [Hk' Hd]%NoDup_cons [[= <- <-]|Hin]%elem_of_cons.
    + by rewrite decide_True.
    + rewrite decide_False; [auto|]. intros ->. apply Hk'.
      apply list_elem_of_fmap. by exists (k, v).
Qed.

Lemma dict_set_fresh d k v : k ∉ dict_keys d → dict_set k v d = d ++ [(k, v)].
Proof.
  unfold dict_keys. induction d as [|[k' v'] d IH]; simpl; [done|].
  intros [Hk Hd]%not_elem_of_cons. rewrite decide_False by done.
  by rewrite IH.
Qed.

Lemma dict_del_fresh d k v : k ∉ dict_keys d → dict_del k (d ++ [(k, v)]) = Ok d.
Proof.
  intros Hk. unfold dict_del, dict_keys. case_decide as Hmem.
  - f_equal. rewrite filter_app, filter_cons_False, filter_nil, app_nil_r.
    + apply filter_all, Forall_forall. intros [k' v'] Hin Heq. simpl in Heq.
      subst. apply Hk. apply list_elem_of_fmap. by exists (k, v').
    + simpl. tauto.
  - destruct Hmem. rewrite fmap_app. apply elem_of_app. right. simpl. left.
Qed.

End Dict.

Lemma length_remove_dups_NoDup {A} `{EqDecision A} (l : list A) :
  List.length (remove_dups l) = List.length l ↔ NoDup l.
Proof.
  split.
  - induction l as [|a l IH]; simpl; [constructor|].
    case_decide as Ha.
    + intros Hlen. pose proof (length_filter (λ _, True) (remove_dups l)).
      assert (List.length (remove_dups l) ≤ List.length l); [|lia].
      clear. induction l; simpl; [done|]. case_decide; simpl; lia.
    + simpl. intros [= Hlen]. constructor; auto.
  - induction 1 as [|a l Ha _ IH]; simpl; [done|].
    case_decide; [done|]. simpl. by rewrite IH.
Qed.

(** ** The consistency checker *)

Section Consistent.

Context (crossword : Crossword).

(** Consistency as the data model states it: the assigned words are
    pairwise distinct, each has the length of its variable, and two
    assigned variables with an overlap agree on the shared letter. *)
Definition consistent_spec (assignment : list (Var.t * str)) : Prop :=
  NoDup (dict_values assignment)
  ∧ (∀ v w, (v, w) ∈ assignment → String.length w = Var.length v)
  ∧ (∀ v1 w1 v2 w2 i j,
       (v1, w1) ∈ assignment → (v2, w2) ∈ assignment → v1 ≠ v2 →
       overlaps crossword v1 v2 = Some (i, j) → letters_agree w1 i w2 j).

(** The overlap indices of the variables [vars] lie within their lengths. *)
Definition overlaps_in_bounds (vars : list Var.t) : Prop :=
  ∀ x y i j,
    x ∈ vars → y ∈ vars → x ≠ y → overlaps crossword x y = Some (i, j) →
    i < Var.length x ∧ j < Var.length y.

Lemma lengths_match_true (items : list (Var.t * str)) :
  lengths_match items = true ↔
  ∀ v w, (v, w) ∈ items → String.length w = Var.length v.
Proof.
  induction items as [|[var word] items IH]; simpl.
  - split; [|done]. by intros _ v w ?%elem_of_nil.
  - case_decide as Hlen.
    + split; [done|]. intros H. destruct Hlen. apply H. left.
    + rewrite IH. split.
      * intros H v w [[= -> ->]|?]%elem_of_cons; auto.
      * intros H v w Hin. apply H. by right.
Qed.

Lemma lengths_match_false (items : list (Var.t * str)) :
  Exists (λ vw, String.length vw.2 ≠ Var.length vw.1) items →
  lengths_match items = false.
Proof.
  intros (vw & Hin & Hne)%Exists_exists.
  destruct (lengths_match items) eqn:H; [|done].
  destruct vw as [v w]. destruct Hne. by eapply lengths_match_true.
Qed.

(** What one inner iteration of [consistent] checks. *)
Definition pair_agrees (assignment : list (Var.t * str)) (var1 var2 : Var.t)
  : Prop :=
  var1 ≠ var2 → ∀ i j, overlaps crossword var1 var2 = Some (i, j) →
    ∃ w1 w2, dict_lookup var1 assignment = Some w1
           ∧ dict_lookup var2 assignment = Some w2
           ∧ letters_agree w1 i w2 j.

Lemma no_conflict_with_true assignment var1 vars2 :
  no_conflict_with crossword assignment var1 vars2 = Ok true ↔
  Forall (pair_agrees assignment var1) vars2.
Proof.
  induction vars2 as [|var2 vars2 IH]; simpl.
  - split; [constructor|done].
  - rewrite Forall_cons, <- IH. clear IH. unfold pair_agrees at 1.
    destruct (decide (var1 ≠ var2)) as [Hne|Heq]; [|tauto].
    destruct (overlaps crossword var1 var2) as [[i j]|] eqn:Ho;
      [|split; [intros ?; split; [intros _ ? ? [=]|done]|tauto]].
    unfold dict_get, str_index.
    destruct (dict_lookup var1 assignment) as [w1|] eqn:H1; simpl;
      [|split; [done|intros [H _]; by destruct (H Hne i j eq_refl) as (? & ? & [=] & _)]].
    destruct (String.get i w1) as [c1|] eqn:Hc1; simpl;
      [|split; [done|intros [H _];
         destruct (H Hne i j eq_refl) as (? & ? & [= <-] & _ & c & ? & _);
         congruence]].
    destruct (dict_lookup var2 assignment) as [w2|] eqn:H2; simpl;
      [|split; [done|intros [H _]; by destruct (H Hne i j eq_refl) as (? & ? & _ & [=] & _)]].
    destruct (String.get j w2) as [c2|] eqn:Hc2; simpl;
      [|split; [done|intros [H _];
         destruct (H Hne i j eq_refl) as (? & ? & _ & [= <-] & c & _ & ?);
         congruence]].
    destruct (decide (c1 ≠ c2)) as [Hc|Hc].
    + split; [done|]. intros [H _].
      destruct (H Hne i j eq_refl) as (? & ? & [= <-] & [= <-] & c & ? & ?).
      congruence.
    + apply dec_stable in Hc as ->. split; [|tauto].
      intros H. split; [|done]. intros _ i' j' [= <- <-].
      exists w1, w2. repeat split. by exists c2.
Qed.

Lemma no_conflicts_true assignment vars1 :
  no_conflicts crossword assignment vars1 = Ok true ↔
  Forall (λ var1, Forall (pair_agrees assignment var1) (dict_keys assignment))
         vars1.
Proof.
  induction vars1 as [|var1 vars1 IH]; simpl.
  - split; [constructor|done].
  - rewrite Forall_cons, <- IH, <- no_conflict_with_true.
    destruct (no_conflict_with crossword assignment var1 (dict_keys assignment))
      as [[]| |]; simpl; naive_solver.
Qed.

Lemma consistent_true_iff (assignment : list (Var.t * str)) :
  NoDup (dict_keys assignment) →
  consistent crossword assignment = Ok true ↔ consistent_spec assignment.
Proof.
  intros Hkeys. unfold consistent, consistent_spec.
  assert (List.length assignment = List.length (dict_values assignment)) as ->
    by (unfold dict_values; by rewrite length_fmap).
  destruct (decide (_ ≠ _)) as [Hd|Hd].
  { split; [done|]. intros [Hnd _]. by apply length_remove_dups_NoDup in Hnd. }
  apply dec_stable, length_remove_dups_NoDup in Hd.
  destruct (lengths_match assignment) eqn:Hlen.
  2:{ split; [done|]. intros (_ & Hl & _).
      apply lengths_match_true in Hl. congruence. }
  rewrite lengths_match_true in Hlen. rewrite no_conflicts_true.
  split.
  - intros Hp. split; [done|]. split; [done|].
    intros v1 w1 v2 w2 i j H1 H2 Hne Ho. rewrite Forall_forall in Hp.
    assert (v1 ∈ dict_keys assignment) as Hv1
      by (apply list_elem_of_fmap; by exists (v1, w1)).
    assert (v2 ∈ dict_keys assignment) as Hv2
      by (apply list_elem_of_fmap; by exists (v2, w2)).
    specialize (Hp v1 Hv1). rewrite Forall_forall in Hp.
    destruct (Hp v2 Hv2 Hne i j Ho) as (w1' & w2' & Hw1 & Hw2 & Hagree).
    rewrite (dict_lookup_NoDup _ _ _ Hkeys H1) in Hw1.
    rewrite (dict_lookup_NoDup _ _ _ Hkeys H2) in Hw2. congruence.
  - intros (_ & _ & Hp). apply Forall_forall. intros v1 Hv1.
    apply Forall_forall. intros v2 Hv2 Hne i j Ho.
    apply dict_lookup_is_Some in Hv1 as [w1 Hw1], Hv2 as [w2 Hw2].
    exists w1, w2. split; [done|]. split; [done|].
    eapply Hp; eauto using dict_lookup_elem.
Qed.

(** C6. Consistency-checker characterization: [consistent(assignment)]
    returns True exactly when the assigned words are pairwise distinct,
    each has the length of its variable, and every two assigned variables
    with an overlap [(i, j)] agree on that letter.  Only the entries of the
    assignment are looked at. *)
Theorem consistent_characterization (assignment : list (Var.t * str)) :
  NoDup (dict_keys assignment) →
  consistent crossword assignment = Ok true ↔ consistent_spec assignment.
Proof. apply consistent_true_iff. Qed.

Lemma no_conflict_with_total assignment var1 vars2 :
  overlaps_in_bounds (dict_keys assignment) →
  (∀ v w, (v, w) ∈ assignment → String.length w = Var.length v) →
  var1 ∈ dict_keys assignment → vars2 ⊆ dict_keys assignment →
  ∃ b, no_conflict_with crossword assignment var1 vars2 = Ok b.
Proof.
  intros Hb Hlen Hv1. induction vars2 as [|var2 vars2 IH]; intros Hsub; simpl.
  - eauto.
  - assert (var2 ∈ dict_keys assignment) as Hv2 by (apply Hsub; left).
    assert (vars2 ⊆ dict_keys assignment) as Hsub' by set_solver.
    destruct (decide (var1 ≠ var2)) as [Hne|Heq]; [|auto].
    destruct (overlaps crossword var1 var2) as [[i j]|] eqn:Ho; [|auto].
    destruct (Hb _ _ _ _ Hv1 Hv2 Hne Ho) as [Hi Hj].
    apply dict_lookup_is_Some in Hv1 as [w1 Hw1], Hv2 as [w2 Hw2].
    unfold dict_get. rewrite Hw1, Hw2. simpl.
    apply dict_lookup_elem, Hlen in Hw1, Hw2.
    destruct (str_index_lt w1 i) as [c1 ->]; [lia|].
    destruct (str_index_lt w2 j) as [c2 ->]; [lia|]. simpl.
    case_decide; eauto.
Qed.

Lemma no_conflicts_total assignment vars1 :
  overlaps_in_bounds (dict_keys assignment) →
  (∀ v w, (v, w) ∈ assignment → String.length w = Var.length v) →
  vars1 ⊆ dict_keys assignment →
  ∃ b, no_conflicts crossword assignment vars1 = Ok b.
Proof.
  intros Hb Hlen. induction vars1 as [|var1 vars1 IH]; intros Hsub; simpl.
  - eauto.
  - destruct (no_conflict_with_total assignment var1 (dict_keys assignment))
      as [b ->]; [done|done|set_solver|done|].
    simpl. destruct b; [|eauto]. apply IH. set_solver.
Qed.

Lemma consistent_returns (assignment : list (Var.t * str)) :
  overlaps_in_bounds (dict_keys assignment) →
  ∃ b, consistent crossword assignment = Ok b.
Proof.
  intros Hb. unfold consistent. case_decide; [eauto|].
  destruct (lengths_match assignment) eqn:Hlen; [|eauto].
  apply no_conflicts_total; [done| |done]. by apply lengths_match_true.
Qed.

(** C10. Safety of the consistency checker: when the overlap indices of
    the assigned variables lie within the variables' lengths, [consistent]
    returns a boolean on every assignment, whatever its words: no letter is
    read out of bounds, since a word of the wrong length makes it return
    False at the length check. *)
Theorem consistent_safe (assignment : list (Var.t * str)) :
  overlaps_in_bounds (dict_keys assignment) →
  (∃ b, consistent crossword assignment = Ok b)
  ∧ (Exists (λ vw, String.length vw.2 ≠ Var.length vw.1) assignment →
     consistent crossword assignment = Ok false).
Proof.
  intros Hb. split; [by apply consistent_returns|].
  intros Hex%lengths_match_false. unfold consistent. rewrite Hex.
  case_decide; done.
Qed.

End Consistent.

(** ** The variable selector *)

(** [<=] on pairs of integers. *)
Definition tuple_le (k1 k2 : Z * Z) : Prop :=
  (k1.1 < k2.1 ∨ (k1.1 = k2.1 ∧ k1.2 ≤ k2.2))%Z.

Lemma tuple_le_refl k : tuple_le k k.
Proof. unfold tuple_le. lia. Qed.

Lemma tuple_le_trans k1 k2 k3 : tuple_le k1 k2 → tuple_le k2 k3 → tuple_le k1 k3.
Proof. unfold tuple_le. lia. Qed.

Lemma tuple_lt_le k1 k2 : tuple_lt k1 k2 → tuple_le k1 k2.
Proof. unfold tuple_lt, tuple_le. lia. Qed.

Lemma not_tuple_lt k1 k2 : ¬ tuple_lt k1 k2 → tuple_le k2 k1.
Proof. unfold tuple_lt, tuple_le. lia. Qed.

Lemma min_loop_elem {A} (key : A → outcome (Z * Z)) items :
  ∀ best best_key r,
    min_loop key best best_key items = Ok r → r ∈ best :: items.
Proof.
  induction items as [|item items IH]; intros best best_key r H; simpl in H.
  - injection H as <-. left.
  - bind_inv H. case_decide; apply IH in H; set_solver.
Qed.

Lemma min_loop_spec {A} (keyM : A → outcome (Z * Z)) (key : A → Z * Z) items :
  ∀ best,
    (∀ x, x ∈ items → keyM x = Ok (key x)) →
    ∃ r, min_loop keyM best (key best) items = Ok r
       ∧ r ∈ best :: items
       ∧ tuple_le (key r) (key best)
       ∧ ∀ u, u ∈ items → tuple_le (key r) (key u).
Proof.
  induction items as [|item items IH]; intros best Hkey; simpl.
  - exists best. split; [done|]. split; [left|]. split; [apply tuple_le_refl|].
    by intros u ?%elem_of_nil.
  - rewrite Hkey by left. simpl.
    assert (∀ x, x ∈ items → keyM x = Ok (key x)) as Hkey'
      by (intros; apply Hkey; by right).
    case_decide as Hlt.
    + destruct (IH item Hkey') as (r & -> & Hr & Hle & Hall).
      exists r. split; [done|]. split; [by right|]. split.
      * eauto using tuple_le_trans, tuple_lt_le.
      * intros u [->|Hu]%elem_of_cons; auto.
    + destruct (IH best Hkey') as (r & -> & Hr & Hle & Hall).
      exists r. split; [done|]. split; [set_solver|]. split; [done|].
      intros u [->|Hu]%elem_of_cons; eauto using tuple_le_trans, not_tuple_lt.
Qed.

Section Select.

Context (crossword : Crossword).

(** The key [select_unassigned_variable] sorts by:
    [(domain size, -degree)]. *)
Definition key_of (domains : gmap Var.t (list str)) (v : Var.t) : Z * Z :=
  (Z.of_nat (List.length (words_of domains v)),
   (- Z.of_nat (List.length (neighbors crossword v)))%Z).

Lemma select_key_Ok (domains : gmap Var.t (list str)) v :
  is_Some (domains !! v) →
  select_key crossword domains v = Ok (key_of domains v).
Proof.
  intros [dv Hdv]. unfold select_key, key_of, domain_get, words_of.
  by rewrite Hdv.
Qed.

Lemma assignment_complete_true (assignment : list (Var.t * str)) :
  assignment_complete crossword assignment = true ↔
  ∀ v, v ∈ variables crossword → v ∈ dict_keys assignment.
Proof.
  unfold assignment_complete. rewrite forallb_forall.
  setoid_rewrite <- list_elem_of_In. setoid_rewrite bool_decide_eq_true. done.
Qed.

Lemma unassigned_nil (assignment : list (Var.t * str)) :
  filter (λ var, var ∉ dict_keys assignment) (variables crossword) = [] ↔
  ∀ v, v ∈ variables crossword → v ∈ dict_keys assignment.
Proof.
  split.
  - intros Hnil v Hv. destruct (decide (v ∈ dict_keys assignment)); [done|].
    by destruct (filter_nil_not_elem_of _ _ v Hnil).
  - intros Hall.
    destruct (filter _ _) as [|v l] eqn:Hf; [done|].
    assert (v ∈ filter (λ var, var ∉ dict_keys assignment) (variables crossword))
      as [Hv ?]%list_elem_of_filter by (rewrite Hf; left).
    destruct Hv. auto.
Qed.

(** The variable returned is one of the variables left to assign. *)
Lemma select_unassigned_variable_Some assignment domains v :
  select_unassigned_variable crossword assignment domains = Ok (Some v) →
  v ∈ variables crossword ∧ v ∉ dict_keys assignment.
Proof.
  unfold select_unassigned_variable.
  destruct (filter _ _) as [|first rest] eqn:Hf; [done|].
  intros H. bind_inv H. bind_inv H. injection H as ->.
  apply min_loop_elem in Hstep0. rewrite <- Hf in Hstep0.
  apply list_elem_of_filter in Hstep0. tauto.
Qed.

(** [None] is returned only on a complete assignment, so [backtrack] never
    sees it. *)
Lemma select_unassigned_variable_None assignment domains :
  select_unassigned_variable crossword assignment domains = Ok None ↔
  ∀ v, v ∈ variables crossword → v ∈ dict_keys assignment.
Proof.
  rewrite <- unassigned_nil. unfold select_unassigned_variable.
  destruct (filter _ _) as [|first rest]; [done|].
  split; [|done]. intros H. bind_inv H. bind_inv H. done.
Qed.

(** With a domain for every variable, [min] raises nothing and returns a
    variable of smallest key. *)
Lemma select_unassigned_variable_min assignment
    (domains : gmap Var.t (list str)) :
  (∀ v, v ∈ variables crossword → is_Some (domains !! v)) →
  (∃ v, v ∈ variables crossword ∧ v ∉ dict_keys assignment) →
  ∃ v, select_unassigned_variable crossword assignment domains = Ok (Some v)
     ∧ v ∈ variables crossword ∧ (v ∉ dict_keys assignment)
     ∧ ∀ u, u ∈ variables crossword → u ∉ dict_keys assignment →
         tuple_le (key_of domains v) (key_of domains u).
Proof.
  intros Hdom (v0 & Hv0 & Hv0'). unfold select_unassigned_variable.
  destruct (filter _ _) as [|first rest] eqn:Hf.
  { rewrite unassigned_nil in Hf. destruct Hv0'. auto. }
  assert (∀ x, x ∈ first :: rest →
            x ∈ variables crossword ∧ x ∉ dict_keys assignment) as Hun.
  { intros x Hx. rewrite <- Hf in Hx. apply list_elem_of_filter in Hx. tauto. }
  rewrite select_key_Ok by (apply Hdom, Hun; left). simpl.
  destruct (min_loop_spec (select_key crossword domains) (key_of domains)
              rest first) as (r & -> & Hr & Hle & Hall).
  { intros x Hx. apply select_key_Ok, Hdom, Hun. by right. }
  simpl. exists r. split; [done|].
  destruct (Hun r Hr). split; [done|]. split; [done|].
  intros u Hu Hu'.
  assert (u ∈ first :: rest) as [->|]%elem_of_cons; auto.
  rewrite <- Hf. by apply list_elem_of_filter.
Qed.

(** C9. Variable-selector contract: [select_unassigned_variable] returns
    None exactly when every variable is assigned; otherwise it returns an
    unassigned variable whose key [(len(domains[v]), -len(neighbors(v)))]
    is lexicographically smallest among the unassigned variables. *)
Theorem select_unassigned_variable_contract assignment
    (domains : gmap Var.t (list str)) :
  (∀ v, v ∈ variables crossword → is_Some (domains !! v)) →
  (select_unassigned_variable crossword assignment domains = Ok None ↔
   ∀ v, v ∈ variables crossword → v ∈ dict_keys assignment)
  ∧ ((∃ v, v ∈ variables crossword ∧ v ∉ dict_keys assignment) →
     ∃ v, select_unassigned_variable crossword assignment domains = Ok (Some v)
        ∧ v ∈ variables crossword ∧ (v ∉ dict_keys assignment)
        ∧ ∀ u, u ∈ variables crossword → u ∉ dict_keys assignment →
            tuple_le (key_of domains v) (key_of domains u)).
Proof.
  intros Hdom. split.
  - apply select_unassigned_variable_None.
  - by apply select_unassigned_variable_min.
Qed.

End Select.

(** ** Node consistency and termination of [ac3] *)

Lemma sum_list_with_le {A} (f g : A → nat) (l : list A) :
  (∀ a, a ∈ l → f a ≤ g a) → sum_list_with f l ≤ sum_list_with g l.
Proof.
  induction l as [|a l IH]; intros Hle; simpl; [done|].
  assert (f a ≤ g a) by (apply Hle; left).
  assert (sum_list_with f l ≤ sum_list_with g l)
    by (apply IH; intros; apply Hle; by right).
  lia.
Qed.

Lemma sum_list_with_lt {A} (f g : A → nat) (l : list A) (x : A) :
  (∀ a, a ∈ l → f a ≤ g a) → x ∈ l → f x < g x →
  sum_list_with f l < sum_list_with g l.
Proof.
  intros Hle Hx Hlt. induction l as [|a l IH]; [by apply elem_of_nil in Hx|].
  simpl.
  assert (sum_list_with f l ≤ sum_list_with g l)
    by (apply sum_list_with_le; intros; apply Hle; by right).
  apply elem_of_cons in Hx as [<-|Hx]; [lia|].
  assert (f a ≤ g a) by (apply Hle; left).
  assert (sum_list_with f l < sum_list_with g l); [|lia].
  apply IH; [|done]. intros; apply Hle; by right.
Qed.

Section NodeConsistency.

Context (crossword : Crossword).

(** The invariant after node consistency: every variable has a domain,
    whose words have the length of the variable. *)
Definition node_consistent (domains : gmap Var.t (list str)) : Prop :=
  ∀ v, v ∈ variables crossword →
    ∃ dv, domains !! v = Some dv
        ∧ Forall (λ w, String.length w = Var.length v) dv.

Lemma init_domains_lookup v :
  v ∈ variables crossword →
  init_domains crossword !! v = Some (words crossword).
Proof.
  intros Hv. unfold init_domains. apply elem_of_list_to_map_1'.
  - by intros y (v' & [= _ ->] & _)%list_elem_of_fmap.
  - apply list_elem_of_fmap. by exists v.
Qed.

Lemma enforce_node_consistency_lookup (domains : gmap Var.t (list str)) v :
  enforce_node_consistency domains !! v =
  filter (λ w, String.length w = Var.length v) <$> domains !! v.
Proof.
  unfold enforce_node_consistency. rewrite map_lookup_imap.
  by destruct (domains !! v).
Qed.

Lemma enforce_node_consistency_le (domains : gmap Var.t (list str)) :
  domains_le (enforce_node_consistency domains) domains.
Proof.
  intros v. rewrite enforce_node_consistency_lookup.
  destruct (domains !! v); constructor.
  by intros w [_ ?]%list_elem_of_filter.
Qed.

Lemma enforce_node_consistency_consistent (domains : gmap Var.t (list str)) :
  (∀ v, v ∈ variables crossword → is_Some (domains !! v)) →
  node_consistent (enforce_node_consistency domains).
Proof.
  intros Hdom v [dv Hdv]%Hdom. rewrite enforce_node_consistency_lookup, Hdv.
  eexists. split; [done|]. apply Forall_forall.
  by intros w [? _]%list_elem_of_filter.
Qed.

Lemma node_consistent_le (domains domains' : gmap Var.t (list str)) :
  domains_le domains' domains →
  node_consistent domains → node_consistent domains'.
Proof.
  intros Hle Hnc v Hv. destruct (Hnc v Hv) as (dv & Hdv & Hlen).
  specialize (Hle v). rewrite Hdv in Hle. inversion Hle as [dv' ? Hsub|]; subst.
  exists dv'. split; [done|]. rewrite Forall_forall in *. auto.
Qed.

Lemma node_consistent_is_Some (domains : gmap Var.t (list str)) v :
  node_consistent domains → v ∈ variables crossword → is_Some (domains !! v).
Proof. intros Hnc Hv. destruct (Hnc v Hv) as (dv & -> & _). eauto. Qed.

Lemma node_consistent_length (domains : gmap Var.t (list str)) v w :
  node_consistent domains → v ∈ variables crossword →
  w ∈ words_of domains v → String.length w = Var.length v.
Proof.
  intros Hnc Hv Hw. destruct (Hnc v Hv) as (dv & Hdv & Hlen).
  rewrite (words_of_Some _ _ _ Hdv) in Hw. rewrite Forall_forall in Hlen. auto.
Qed.

(** An arc between two distinct variables of the instance. *)
Definition proper_arc (a : arc) : Prop :=
  a.1 ∈ variables crossword ∧ a.2 ∈ variables crossword ∧ a.1 ≠ a.2.

Lemma is_arc_proper a : is_arc crossword a → proper_arc a.
Proof.
  intros [Hx (Hy & Hne & _)%elem_of_neighbors]. split; [done|]. split; auto.
Qed.

Lemma new_arcs_proper x y :
  x ∈ variables crossword →
  Forall proper_arc
    ((λ z, (z, x)) <$> filter (λ z, z ≠ y) (neighbors crossword x)).
Proof.
  intros Hx. apply Forall_fmap, Forall_forall.
  intros z [_ (Hz & Hne & _)%elem_of_neighbors]%list_elem_of_filter.
  split; [done|]. split; done.
Qed.

Lemma length_new_arcs x y :
  List.length ((λ z, (z, x)) <$> filter (λ z, z ≠ y) (neighbors crossword x))
  ≤ List.length (variables crossword).
Proof.
  rewrite length_fmap. etrans; [apply length_filter|]. apply length_filter.
Qed.

Lemma revise_loop_total i j y (domains : gmap Var.t (list str)) dy dx :
  domains !! y = Some dy →
  Forall (λ w, i < String.length w) dx →
  Forall (λ w', j < String.length w') dy →
  ∀ rm rev, ∃ r, revise_loop i j y domains dx rm rev = Ok r.
Proof.
  intros Hdy Hdx Hj. induction Hdx as [|word_x dx Hi _ IH]; intros rm rev; simpl.
  - eauto.
  - unfold domain_get. rewrite Hdy. simpl.
    destruct (any_match_total word_x i j dy Hi Hj) as [[] ->]; simpl; apply IH.
Qed.

(** On node-consistent domains [revise] raises nothing. *)
Lemma revise_total x y (domains : gmap Var.t (list str)) :
  overlaps_in_bounds crossword (variables crossword) →
  node_consistent domains → proper_arc (x, y) →
  ∃ b domains', revise crossword x y domains = Ok (b, domains').
Proof.
  intros Hb Hnc (Hx & Hy & Hne). simpl in *. unfold revise.
  destruct (overlaps crossword x y) as [[i j]|] eqn:Ho; [|eauto].
  destruct (Hb _ _ _ _ Hx Hy Hne Ho) as [Hi Hj].
  destruct (Hnc x Hx) as (dx & Hdx & Hlx), (Hnc y Hy) as (dy & Hdy & Hly).
  unfold domain_get at 1. rewrite Hdx. simpl.
  destruct (revise_loop_total i j y domains dy dx Hdy) with (rm := @nil str)
    (rev := false) as [[rm rev] ->]; simpl; [| |eauto].
  - eapply Forall_impl; [done|]. simpl. intros w ->. done.
  - eapply Forall_impl; [done|]. simpl. intros w ->. done.
Qed.

(** The number of words left in the domains. *)
Definition total_words (domains : gmap Var.t (list str)) : nat :=
  sum_list_with (λ v, List.length (words_of domains v)) (variables crossword).

Lemma revise_total_words x y (domains domains' : gmap Var.t (list str)) :
  x ∈ variables crossword →
  revise crossword x y domains = Ok (true, domains') →
  total_words domains' < total_words domains.
Proof.
  intros Hx Hr. unfold total_words. apply sum_list_with_lt with x.
  - intros v _. pose proof (revise_words_of _ _ _ _ _ _ Hr) as (Hother & _ & _).
    destruct (decide (v = x)) as [->|Hv].
    + by apply Nat.lt_le_incl, (revise_true crossword x y).
    + unfold words_of. by rewrite Hother.
  - done.
  - by apply (revise_true crossword x y).
Qed.

(** [ac3] returns once its budget exceeds the length of the queue plus
    [len(variables)] times the number of words in the domains: a revision
    removes a word and adds at most [len(variables)] arcs. *)
Lemma ac3_loop_total :
  overlaps_in_bounds crossword (variables crossword) →
  ∀ fuel queue (domains : gmap Var.t (list str)),
    Forall proper_arc queue → node_consistent domains →
    List.length queue
      + List.length (variables crossword) * total_words domains < fuel →
    ∃ b domains', ac3_loop crossword fuel queue domains = Ok (b, domains').
Proof.
  intros Hb. induction fuel as [|fuel IH]; intros queue domains Hq Hnc Hfuel;
    [lia|].
  destruct queue as [|[x y] queue]; simpl; [eauto|].
  apply Forall_cons in Hq as [Hxy Hq].
  destruct (revise_total x y domains Hb Hnc Hxy) as (revised & domains1 & Hr).
  rewrite Hr. simpl.
  pose proof (revise_le _ _ _ _ _ _ Hr) as Hle.
  pose proof (node_consistent_le _ _ Hle Hnc) as Hnc1.
  destruct Hxy as (Hx & _). simpl in Hx. destruct revised.
  - destruct (node_consistent_is_Some _ _ Hnc1 Hx) as [dx Hdx].
    unfold domain_get. rewrite Hdx. simpl. case_decide; [eauto|].
    apply IH; [|done|].
    + apply Forall_app. split; [done|]. by apply new_arcs_proper.
    + rewrite length_app. pose proof (length_new_arcs x y).
      pose proof (revise_total_words _ _ _ _ Hx Hr). simpl in Hfuel. nia.
  - apply revise_false in Hr as ->. apply IH; [done..|]. simpl in Hfuel. lia.
Qed.

End NodeConsistency.

(** ** The value orderer *)

Lemma insert_by_key_perm {A} (x : nat * A) l : insert_by_key x l ≡ₚ x :: l.
Proof.
  induction l as [|y l IH]; simpl; [done|].
  case_decide; [done|]. rewrite IH. apply Permutation_swap.
Qed.

Lemma sort_by_key_perm {A} (l : list (nat * A)) : sort_by_key l ≡ₚ l.
Proof.
  induction l as [|x l IH]; simpl; [done|].
  by rewrite insert_by_key_perm, IH.
Qed.

Lemma constraint_keys_snd constraints dv keyed :
  constraint_keys constraints dv = Ok keyed → keyed.*2 = dv.
Proof.
  revert keyed. induction dv as [|w dv IH]; intros keyed H; simpl in H.
  - by injection H as <-.
  - bind_inv H. bind_inv H. injection H as <-. simpl. f_equal. auto.
Qed.

Lemma constraint_keys_total (constraints : gmap str nat) dv :
  (∀ w, w ∈ dv → is_Some (constraints !! w)) →
  ∃ keyed, constraint_keys constraints dv = Ok keyed.
Proof.
  induction dv as [|w dv IH]; intros Hc; simpl; [eauto|].
  destruct (Hc w ltac:(left)) as [k ->]. simpl.
  destruct IH as [ks ->]; [intros; apply Hc; by right|]. simpl. eauto.
Qed.

Lemma count_conflicts_total word i j dn :
  i < String.length word →
  Forall (λ w', j < String.length w') dn →
  ∀ count, ∃ c, count_conflicts word i j dn count = Ok c.
Proof.
  intros Hi. induction 1 as [|w' dn Hj _ IH]; intros count; simpl; [eauto|].
  destruct (str_index_lt _ _ Hi) as [c ->], (str_index_lt _ _ Hj) as [c' ->].
  simpl. apply IH.
Qed.

Section Order.

Context (crossword : Crossword).

(** The values tried for a variable are the words of its domain. *)
Lemma order_domain_values_perm var assignment
    (domains : gmap Var.t (list str)) values :
  order_domain_values crossword var assignment domains = Ok values →
  ∃ dv, domains !! var = Some dv ∧ values ≡ₚ dv.
Proof.
  unfold order_domain_values. intros H. bind_inv H. bind_inv H. bind_inv H.
  bind_inv H. injection H as <-. apply domain_get_Ok in Hstep, Hstep1.
  exists a. split; [done|]. rewrite sort_by_key_perm.
  apply constraint_keys_snd in Hstep2. rewrite Hstep2.
  assert (a1 = a) as -> by congruence. done.
Qed.

Lemma count_ruled_out_total var word (domains : gmap Var.t (list str)) ns :
  overlaps_in_bounds crossword (variables crossword) →
  node_consistent crossword domains →
  var ∈ variables crossword → String.length word = Var.length var →
  Forall (λ n, n ∈ variables crossword ∧ n ≠ var) ns →
  ∀ count, ∃ c, count_ruled_out crossword var word domains ns count = Ok c.
Proof.
  intros Hb Hnc Hvar Hlen. induction 1 as [|n ns [Hn Hne] _ IH];
    intros count; simpl; [eauto|].
  destruct (overlaps crossword var n) as [[i j]|] eqn:Ho; [|apply IH].
  destruct (Hb _ _ _ _ Hvar Hn ltac:(done) Ho) as [Hi Hj].
  destruct (Hnc n Hn) as (dn & Hdn & Hln).
  unfold domain_get. rewrite Hdn. simpl.
  destruct (count_conflicts_total word i j dn) with (count := count)
    as [c ->]; [lia| |simpl; apply IH].
  eapply Forall_impl; [done|]. simpl. intros w ->. done.
Qed.

Lemma fill_constraints_total var (domains : gmap Var.t (list str)) ns dv :
  overlaps_in_bounds crossword (variables crossword) →
  node_consistent crossword domains →
  var ∈ variables crossword →
  Forall (λ n, n ∈ variables crossword ∧ n ≠ var) ns →
  Forall (λ w, String.length w = Var.length var) dv →
  ∀ constraints, ∃ constraints',
    fill_constraints crossword var domains ns dv constraints = Ok constraints'
    ∧ ∀ w, w ∈ dv ∨ is_Some (constraints !! w) → is_Some (constraints' !! w).
Proof.
  intros Hb Hnc Hvar Hns. induction 1 as [|word dv Hlen _ IH];
    intros constraints; simpl.
  - exists constraints. split; [done|]. by intros w [?%elem_of_nil|].
  - destruct (count_ruled_out_total var word domains ns Hb Hnc Hvar Hlen Hns 0)
      as [c ->]. simpl.
    destruct (IH (<[word := c]> constraints)) as (constraints' & -> & Hk).
    exists constraints'. split; [done|]. intros w Hw. apply Hk.
    destruct (decide (word = w)) as [->|Hne].
    + right. rewrite lookup_insert_eq. eauto.
    + rewrite lookup_insert_ne by done.
      destruct Hw as [[->|]%elem_of_cons|]; [done|auto..].
Qed.

(** On node-consistent domains [order_domain_values] raises nothing. *)
Lemma order_domain_values_total var assignment
    (domains : gmap Var.t (list str)) :
  overlaps_in_bounds crossword (variables crossword) →
  node_consistent crossword domains →
  var ∈ variables crossword →
  ∃ values, order_domain_values crossword var assignment domains = Ok values.
Proof.
  intros Hb Hnc Hvar. unfold order_domain_values.
  destruct (Hnc var Hvar) as (dv & Hdv & Hlen).
  unfold domain_get. rewrite Hdv. simpl.
  destruct (fill_constraints_total var domains
              (filter (λ n, n ∉ dict_keys assignment) (neighbors crossword var))
              dv Hb Hnc Hvar) with (constraints := (∅ : gmap str nat))
    as (constraints & -> & Hk); [|done|].
  { apply Forall_forall.
    intros n [_ (? & ? & _)%elem_of_neighbors]%list_elem_of_filter. done. }
  simpl. destruct (constraint_keys_total constraints dv) as [keyed ->]; [auto|].
  simpl. eauto.
Qed.

End Order.

(** ** Backtracking search *)

Section Backtrack.

Context (crossword : Crossword).
Implicit Types (assignment : list (Var.t * str)) (domains : gmap Var.t (list str)).

(** What holds when a call of [backtrack] on [assignment] returns: on None
    the dictionary is as it was at the call; otherwise the returned object
    is the dictionary itself, now complete, and consistent unless the call
    returned at once. *)
Definition backtrack_post domains assignment (r : Backtracked) : Prop :=
  match returned r with
  | None => assignment_at_return r = assignment
  | Some result =>
      assignment_at_return r = result
      ∧ assignment_complete crossword result = true
      ∧ (result = assignment ∨ consistent crossword result = Ok true)
      ∧ (NoDup (dict_keys assignment) → NoDup (dict_keys result))
      ∧ (∀ v w, (v, w) ∈ result →
           (v, w) ∈ assignment
           ∨ (v ∈ variables crossword ∧ w ∈ words_of domains v))
  end.

Lemma dict_keys_snoc assignment var value :
  dict_keys (assignment ++ [(var, value)]) = dict_keys assignment ++ [var].
Proof. unfold dict_keys. by rewrite fmap_app. Qed.

Lemma NoDup_keys_snoc assignment var value :
  var ∉ dict_keys assignment → NoDup (dict_keys assignment) →
  NoDup (dict_keys (assignment ++ [(var, value)])).
Proof.
  intros Hvar Hnd. rewrite dict_keys_snoc. apply NoDup_app.
  split; [done|]. split; [|apply NoDup_singleton].
  intros v Hv ->%list_elem_of_singleton. done.
Qed.

Lemma backtrack_values_post recurse domains var assignment :
  (∀ a1 r1, recurse a1 = Ok r1 → backtrack_post domains a1 r1) →
  var ∈ variables crossword → var ∉ dict_keys assignment →
  ∀ values calls r,
    (∀ value, value ∈ values → value ∈ words_of domains var) →
    backtrack_values crossword recurse var values assignment calls = Ok r →
    match returned r with
    | None => assignment_at_return r = assignment
    | Some result =>
        assignment_at_return r = result
        ∧ assignment_complete crossword result = true
        ∧ consistent crossword result = Ok true
        ∧ (NoDup (dict_keys assignment) → NoDup (dict_keys result))
        ∧ (∀ v w, (v, w) ∈ result →
             (v, w) ∈ assignment
             ∨ (v ∈ variables crossword ∧ w ∈ words_of domains v))
    end.
Proof.
  intros Hrec Hvar Hfresh.
  induction values as [|value values IH]; intros calls r Hvals H; simpl in H.
  - by injection H as <-.
  - rewrite dict_set_fresh in H by done.
    assert (∀ value, value ∈ values → value ∈ words_of domains var) as Hvals'
      by (intros; apply Hvals; by right).
    bind_inv H. destruct a as [|].
    + bind_inv H. pose proof (Hrec _ _ Hstep0) as Hpost.
      unfold backtrack_post in Hpost.
      destruct (returned a) as [result|] eqn:Hret.
      * injection H as <-. simpl.
        destruct Hpost as (Hat & Hcomplete & Hcons & Hnd & Helem).
        split; [done|]. split; [done|]. split; [|split].
        -- destruct Hcons as [->|]; done.
        -- intros ?. by apply Hnd, NoDup_keys_snoc.
        -- intros v w [[Hin|[= -> ->]%list_elem_of_singleton]%elem_of_app|]
             %Helem; auto.
           right. split; [done|]. apply Hvals. left.
      * rewrite Hpost, dict_del_fresh in H by done. simpl in H.
        exact (IH _ _ Hvals' H).
    + rewrite dict_del_fresh in H by done. simpl in H.
      exact (IH _ _ Hvals' H).
Qed.

Lemma backtrack_post_holds fuel domains :
  ∀ assignment r,
    backtrack crossword fuel domains assignment = Ok r →
    backtrack_post domains assignment r.
Proof.
  induction fuel as [|fuel IH]; intros assignment r H; simpl in H; [done|].
  destruct (assignment_complete crossword assignment) eqn:Hcomplete.
  - injection H as <-. unfold backtrack_post. simpl. auto 10.
  - bind_inv H. destruct a as [var|]; [|done]. bind_inv H.
    apply select_unassigned_variable_Some in Hstep as [Hvar Hfresh].
    apply order_domain_values_perm in Hstep0 as (dv & Hdv & Hperm).
    eapply backtrack_values_post in H; [|done..|].
    + unfold backtrack_post. destruct (returned r); [|done].
      destruct H as (? & ? & ? & ? & ?). auto 10.
    + intros value Hvalue. rewrite (words_of_Some _ _ _ Hdv).
      by rewrite <- Hperm.
Qed.

(** C7. Undo discipline: whenever [backtrack(a)] returns None, the
    assignment dictionary holds at return exactly the entries it held at
    the call, in the same order: every tentative entry has been removed. *)
Theorem backtrack_undo fuel domains assignment r :
  backtrack crossword fuel domains assignment = Ok r →
  returned r = None →
  assignment_at_return r = assignment.
Proof.
  intros H%backtrack_post_holds Hret. unfold backtrack_post in H.
  by rewrite Hret in H.
Qed.

Lemma solve_result_sound fuel domains sol result :
  solve crossword fuel domains = Ok sol →
  solution sol = Some result →
  (∀ v, v ∈ variables crossword → ∃ w, (v, w) ∈ result)
  ∧ (∀ v w, (v, w) ∈ result →
       v ∈ variables crossword ∧ w ∈ words_of domains v)
  ∧ NoDup (dict_keys result)
  ∧ consistent crossword result = Ok true
  ∧ consistent_spec crossword result.
Proof.
  unfold solve. intros H Hsol. bind_inv H. destruct a as [b domains2].
  bind_inv H. injection H as <-. simpl in Hsol.
  apply ac3_loop_run, ac3_run_le in Hstep.
  pose proof (enforce_node_consistency_le domains) as Hle.
  assert (domains_le domains2 domains) as [_ Hsub]%domains_le_alt
    by (etrans; done).
  apply backtrack_post_holds in Hstep0. unfold backtrack_post in Hstep0.
  rewrite Hsol in Hstep0.
  destruct Hstep0 as (_ & Hcomplete & Hcons & Hnd & Helem).
  specialize (Hnd (NoDup_nil_2 : NoDup (dict_keys []))).
  assert (consistent crossword result = Ok true) as Hc
    by (destruct Hcons as [->|]; done).
  split; [|split; [|split; [done|split; [done|]]]].
  - intros v Hv. rewrite assignment_complete_true in Hcomplete.
    apply Hcomplete, list_elem_of_fmap in Hv as ([v' w] & -> & Hin). eauto.
  - intros v w [[]%elem_of_nil|[Hv Hw]]%Helem. split; [done|]. by apply Hsub.
  - by apply consistent_true_iff.
Qed.

(** C2. Backtracking soundness: an assignment returned by [solve] has an
    entry for every variable of the instance, each with a word of that
    variable's domain, and it passes [consistent]: its words are pairwise
    distinct, each has the length of its variable, and the letters of
    overlapping variables agree. *)
Theorem solve_sound fuel domains sol result :
  solve crossword fuel domains = Ok sol →
  solution sol = Some result →
  (∀ v, v ∈ variables crossword → ∃ w, (v, w) ∈ result)
  ∧ (∀ v w, (v, w) ∈ result →
       v ∈ variables crossword ∧ w ∈ words_of domains v)
  ∧ NoDup (dict_keys result)
  ∧ consistent crossword result = Ok true
  ∧ consistent_spec crossword result.
Proof. apply solve_result_sound. Qed.

End Backtrack.

(** ** Termination and completeness of the search *)

Section Completeness.

Context (crossword : Crossword).
Implicit Types (assignment : list (Var.t * str)) (domains : gmap Var.t (list str)).

(** The variables [backtrack] still has to assign. *)
Definition unassigned assignment : list Var.t :=
  filter (λ var, var ∉ dict_keys assignment) (variables crossword).

Lemma unassigned_snoc assignment var value :
  var ∈ variables crossword → var ∉ dict_keys assignment →
  List.length (unassigned (assignment ++ [(var, value)]))
  < List.length (unassigned assignment).
Proof.
  intros Hvar Hfresh. unfold unassigned.
  rewrite (list_filter_iff _ (λ v, v ≠ var ∧ v ∉ dict_keys assignment)).
  - rewrite <- list_filter_filter. apply length_filter_lt with var.
    + by apply list_elem_of_filter.
    + by intros [].
  - intros v. rewrite dict_keys_snoc, elem_of_app, list_elem_of_singleton. tauto.
Qed.

Lemma keys_snoc_subseteq assignment var value :
  dict_keys assignment ⊆ variables crossword → var ∈ variables crossword →
  dict_keys (assignment ++ [(var, value)]) ⊆ variables crossword.
Proof.
  intros Hsub Hvar v. rewrite dict_keys_snoc, elem_of_app, list_elem_of_singleton.
  intros [?| ->]; auto.
Qed.

Lemma consistent_total assignment :
  overlaps_in_bounds crossword (variables crossword) →
  dict_keys assignment ⊆ variables crossword →
  ∃ b, consistent crossword assignment = Ok b.
Proof.
  intros Hb Hsub. apply consistent_returns. intros x y i j Hx Hy. apply Hb; auto.
Qed.

Lemma complete_false_unassigned assignment :
  assignment_complete crossword assignment = false →
  ∃ v, v ∈ variables crossword ∧ v ∉ dict_keys assignment.
Proof.
  intros Hc. destruct (unassigned assignment) as [|v l] eqn:Hun.
  - pose proof (proj1 (unassigned_nil _ _) Hun) as Hall.
    pose proof (proj2 (assignment_complete_true _ _) Hall). congruence.
  - exists v. assert (v ∈ unassigned assignment) as Hv by (rewrite Hun; left).
    apply list_elem_of_filter in Hv. tauto.
Qed.

(** The loop of [backtrack] returns when each recursive call does. *)
Lemma backtrack_values_total recurse domains var assignment :
  overlaps_in_bounds crossword (variables crossword) →
  dict_keys assignment ⊆ variables crossword →
  var ∈ variables crossword → var ∉ dict_keys assignment →
  (∀ value, ∃ r1, recurse (assignment ++ [(var, value)]) = Ok r1
                ∧ backtrack_post crossword domains
                    (assignment ++ [(var, value)]) r1) →
  ∀ values calls,
    ∃ r, backtrack_values crossword recurse var values assignment calls = Ok r.
Proof.
  intros Hb Hsub Hvar Hfresh Hrec.
  induction values as [|value values IH]; intros calls; simpl; [eauto|].
  rewrite dict_set_fresh by done.
  destruct (consistent_total (assignment ++ [(var, value)]) Hb)
    as [ok ->]; [by apply keys_snoc_subseteq|]. simpl.
  destruct ok.
  - destruct (Hrec value) as (r1 & -> & Hpost). simpl.
    unfold backtrack_post in Hpost. destruct (returned r1); [eauto|].
    rewrite Hpost, dict_del_fresh by done. simpl. apply IH.
  - rewrite dict_del_fresh by done. simpl. apply IH.
Qed.

(** [backtrack] returns, without raising, once its budget exceeds the
    number of variables left to assign. *)
Lemma backtrack_total domains :
  overlaps_in_bounds crossword (variables crossword) →
  node_consistent crossword domains →
  ∀ fuel assignment,
    dict_keys assignment ⊆ variables crossword →
    List.length (unassigned assignment) < fuel →
    ∃ r, backtrack crossword fuel domains assignment = Ok r.
Proof.
  intros Hb Hnc. induction fuel as [|fuel IH]; intros assignment Hsub Hfuel;
    [lia|]. simpl.
  destruct (assignment_complete crossword assignment) eqn:Hc; [eauto|].
  destruct (select_unassigned_variable_min crossword assignment domains)
    as (var & -> & Hvar & Hfresh & _);
    [intros; by eapply node_consistent_is_Some
    |by apply complete_false_unassigned|]. simpl.
  destruct (order_domain_values_total crossword var assignment domains)
    as [values ->]; [done..|]. simpl.
  apply backtrack_values_total with domains; [done..|].
  intros value. destruct (IH (assignment ++ [(var, value)])) as [r1 Hr1].
  - by apply keys_snoc_subseteq.
  - pose proof (unassigned_snoc assignment var value Hvar Hfresh). lia.
  - exists r1. split; [done|]. by eapply backtrack_post_holds.
Qed.

(** A total assignment of vocabulary words that is consistent. *)
Definition is_solution (s : list (Var.t * str)) : Prop :=
  NoDup (dict_keys s)
  ∧ (∀ v, v ∈ dict_keys s ↔ v ∈ variables crossword)
  ∧ (∀ v w, (v, w) ∈ s → w ∈ words crossword)
  ∧ consistent_spec crossword s.

(** The words of [s] are still in the domains. *)
Definition within (s : list (Var.t * str)) domains : Prop :=
  ∀ v w, (v, w) ∈ s → w ∈ words_of domains v.

Lemma solution_entry s v :
  is_solution s → v ∈ variables crossword → ∃ w, (v, w) ∈ s.
Proof.
  intros (_ & Hkeys & _) Hv. apply Hkeys, list_elem_of_fmap in Hv.
  destruct Hv as ([v' w] & -> & Hin). eauto.
Qed.

(** An instance that has a solution has its overlap indices in bounds. *)
Lemma solution_in_bounds s :
  is_solution s → overlaps_in_bounds crossword (variables crossword).
Proof.
  intros Hs x y i j Hx Hy Hne Ho.
  destruct (solution_entry s x Hs Hx) as [wx Hwx].
  destruct (solution_entry s y Hs Hy) as [wy Hwy].
  destruct Hs as (_ & _ & _ & _ & Hlen & Hagree).
  specialize (Hagree _ _ _ _ _ _ Hwx Hwy Hne Ho).
  apply letters_agree_lt in Hagree. rewrite <- (Hlen x wx), <- (Hlen y wy); done.
Qed.

(** Part of a consistent assignment is consistent. *)
Lemma consistent_sub s assignment :
  is_solution s → assignment ⊆ s → NoDup (dict_keys assignment) →
  consistent crossword assignment = Ok true.
Proof.
  intros (Hkeys & _ & _ & Hnd & Hlen & Hagree) Hsub Hnda.
  apply consistent_true_iff; [done|]. split; [|split].
  - unfold dict_values. apply NoDup_fmap_2_strong.
    + intros [v1 w1] [v2 w2] H1%Hsub H2%Hsub Heq. simpl in Heq. subst w2.
      f_equal. destruct (decide (v1 = v2)) as [|Hne]; [done|].
      assert (∃ i j : nat, i < j ∧ s.*2 !! i = Some w1 ∧ s.*2 !! j = Some w1)
        as (i & j & Hij & Hi & Hj); [|pose proof (NoDup_lookup _ _ _ _ Hnd Hi Hj); lia].
      apply list_elem_of_lookup in H1 as [i1 Hi1], H2 as [i2 Hi2].
      assert (i1 ≠ i2) by (intros ->; congruence).
      destruct (decide (i1 < i2)); [exists i1, i2|exists i2, i1];
        (split; [lia|]); rewrite !list_lookup_fmap, Hi1, Hi2; done.
    + by eapply NoDup_fmap_1.
  - intros v w Hin. apply Hlen. auto.
  - intros v1 w1 v2 w2 i j H1 H2. apply Hagree; auto.
Qed.

(** The loop of [backtrack] finds a result when the recursive call on one
    of its values does. *)
Lemma backtrack_values_finds recurse domains var assignment good :
  overlaps_in_bounds crossword (variables crossword) →
  dict_keys assignment ⊆ variables crossword →
  var ∈ variables crossword → var ∉ dict_keys assignment →
  (∀ value, ∃ r1, recurse (assignment ++ [(var, value)]) = Ok r1
                ∧ backtrack_post crossword domains
                    (assignment ++ [(var, value)]) r1) →
  consistent crossword (assignment ++ [(var, good)]) = Ok true →
  (∃ r1 result, recurse (assignment ++ [(var, good)]) = Ok r1
              ∧ returned r1 = Some result) →
  ∀ values calls, good ∈ values →
    ∃ r result,
      backtrack_values crossword recurse var values assignment calls = Ok r
      ∧ returned r = Some result.
Proof.
  intros Hb Hsub Hvar Hfresh Hrec Hgood (rg & resg & Hrg & Hresg).
  induction values as [|value values IH]; intros calls Hin; simpl;
    [by apply elem_of_nil in Hin|].
  rewrite dict_set_fresh by done.
  destruct (consistent_total (assignment ++ [(var, value)]) Hb)
    as [ok Hok]; [by apply keys_snoc_subseteq|]. rewrite Hok. simpl.
  destruct ok.
  - destruct (Hrec value) as (r1 & Hr1 & Hpost). rewrite Hr1. simpl.
    unfold backtrack_post in Hpost.
    destruct (returned r1) as [res|] eqn:Hret; [eauto|].
    rewrite Hpost, dict_del_fresh by done. simpl. apply IH.
    apply elem_of_cons in Hin as [->|]; [|done]. congruence.
  - rewrite dict_del_fresh by done. simpl. apply IH.
    apply elem_of_cons in Hin as [->|]; [|done]. congruence.
Qed.

(** From any part of a solution whose words are still in the domains,
    [backtrack] returns an assignment. *)
Lemma backtrack_complete domains s :
  is_solution s → within s domains → node_consistent crossword domains →
  ∀ fuel assignment,
    assignment ⊆ s → NoDup (dict_keys assignment) →
    List.length (unassigned assignment) < fuel →
    ∃ r result, backtrack crossword fuel domains assignment = Ok r
              ∧ returned r = Some result.
Proof.
  intros Hs Hwithin Hnc. pose proof (solution_in_bounds s Hs) as Hb.
  assert (∀ assignment, assignment ⊆ s →
            dict_keys assignment ⊆ variables crossword) as Hkeys.
  { intros assignment Hsub v ([v' w] & -> & Hin)%list_elem_of_fmap.
    destruct Hs as (_ & Hk & _). apply Hk, list_elem_of_fmap.
    exists (v', w). auto. }
  induction fuel as [|fuel IH]; intros assignment Hsub Hnd Hfuel; [lia|].
  simpl. destruct (assignment_complete crossword assignment) eqn:Hc.
  { eexists _, _. split; [done|]. done. }
  destruct (select_unassigned_variable_min crossword assignment domains)
    as (var & -> & Hvar & Hfresh & _);
    [intros; by eapply node_consistent_is_Some
    |by apply complete_false_unassigned|]. simpl.
  destruct (order_domain_values_total crossword var assignment domains)
    as [values Hvalues]; [done..|]. rewrite Hvalues. simpl.
  apply order_domain_values_perm in Hvalues as (dv & Hdv & Hperm).
  destruct (solution_entry s var Hs Hvar) as [good Hgood].
  pose proof (unassigned_snoc assignment var) as Hlt.
  assert (assignment ++ [(var, good)] ⊆ s) as Hsub'.
  { intros p [?| ->%list_elem_of_singleton]%elem_of_app; auto. }
  apply backtrack_values_finds with domains good; auto.
  - intros value.
    destruct (backtrack_total domains Hb Hnc fuel (assignment ++ [(var, value)]))
      as [r1 Hr1].
    + by apply keys_snoc_subseteq; auto.
    + specialize (Hlt value Hvar Hfresh). lia.
    + exists r1. split; [done|]. by eapply backtrack_post_holds.
  - apply consistent_sub with s; [done..|]. by apply NoDup_keys_snoc.
  - apply IH; [done|by apply NoDup_keys_snoc|].
    specialize (Hlt good Hvar Hfresh). lia.
  - rewrite Hperm. apply Hwithin in Hgood.
    by rewrite (words_of_Some _ _ _ Hdv) in Hgood.
Qed.

End Completeness.

(** ** The solver *)

Section Solve.

Context (crossword : Crossword).
Implicit Types (assignment : list (Var.t * str)) (domains : gmap Var.t (list str)).

(** [revise] keeps the words of a solution. *)
Lemma revise_within s x y domains domains' b :
  is_solution crossword s → within s domains →
  proper_arc crossword (x, y) →
  revise crossword x y domains = Ok (b, domains') →
  within s domains'.
Proof.
  intros Hs Hwithin (Hx & Hy & Hne) Hr. simpl in *.
  destruct (overlaps crossword x y) as [[i j]|] eqn:Ho.
  - destruct (revise_overlap _ _ _ _ _ _ _ _ Ho Hr) as (dx & Hdx & -> & _).
    intros v w Hin. destruct (decide (x = v)) as [<-|Hv].
    + rewrite words_of_insert_eq. apply list_elem_of_filter. split.
      * destruct (solution_entry crossword s y Hs Hy) as [wy Hwy].
        apply Exists_exists. exists wy. split; [by apply Hwithin|].
        destruct Hs as (_ & _ & _ & _ & _ & Hagree). by eapply Hagree.
      * apply Hwithin in Hin. by rewrite (words_of_Some _ _ _ Hdx) in Hin.
    + rewrite words_of_insert_ne by done. by apply Hwithin.
  - by apply revise_no_overlap in Hr as [_ ->].
Qed.

Lemma ac3_run_within s queue domains b domains' :
  is_solution crossword s →
  ac3_run crossword queue domains b domains' →
  Forall (proper_arc crossword) queue → within s domains →
  within s domains'.
Proof.
  intros Hs. induction 1 as [| x y queue domains b domains' Hr _ IH
    | x y queue domains domains1 Hr _
    | x y queue domains domains1 dx b domains' Hr _ _ _ IH];
    intros Hq Hwithin; [done|..].
  - apply Forall_cons in Hq as [_ Hq]. auto.
  - apply Forall_cons in Hq as [Hxy _]. by eapply revise_within.
  - apply Forall_cons in Hq as [Hxy Hq]. apply IH.
    + apply Forall_app. split; [done|]. apply new_arcs_proper, Hxy.
    + by eapply revise_within.
Qed.

(** When [ac3] returns False it has emptied the domain of a variable. *)
Lemma ac3_run_false queue domains domains' :
  ac3_run crossword queue domains false domains' →
  Forall (proper_arc crossword) queue →
  ∃ x, x ∈ variables crossword ∧ domains' !! x = Some [].
Proof.
  remember false as b eqn:Hb.
  induction 1 as [| x y queue domains b domains' Hr _ IH
    | x y queue domains domains1 Hr Hdx
    | x y queue domains domains1 dx b domains' Hr _ _ _ IH];
    intros Hq; [done|..].
  - apply Forall_cons in Hq as [_ Hq]. auto.
  - apply Forall_cons in Hq as [[Hx _] _]. eauto.
  - apply Forall_cons in Hq as [Hxy Hq]. apply IH; [done|].
    apply Forall_app. split; [done|]. apply new_arcs_proper, Hxy.
Qed.

Lemma all_arcs_proper : Forall (proper_arc crossword) (all_arcs crossword).
Proof.
  apply Forall_forall. intros a Ha. by apply is_arc_proper, elem_of_all_arcs.
Qed.

(** With an empty domain around, [backtrack] selects a variable without
    values and returns None at once. *)
Lemma backtrack_empty_domain fuel domains x :
  (∀ v, v ∈ variables crossword → is_Some (domains !! v)) →
  x ∈ variables crossword → domains !! x = Some [] →
  backtrack crossword (S fuel) domains [] =
  Ok {| returned := None; assignment_at_return := []; invocations := 1 |}.
Proof.
  intros Hdom Hx Hempty. simpl.
  destruct (assignment_complete crossword []) eqn:Hc.
  { rewrite assignment_complete_true in Hc. by apply Hc, elem_of_nil in Hx. }
  destruct (select_unassigned_variable_min crossword [] domains)
    as (var & -> & Hvar & _ & Hmin); [done|by apply complete_false_unassigned|].
  simpl. specialize (Hmin x Hx ltac:(by intros ?%elem_of_nil)).
  destruct (Hdom var Hvar) as [dv Hdv].
  assert (dv = []) as ->.
  { unfold tuple_le, key_of in Hmin. simpl in Hmin.
    rewrite (words_of_Some _ _ _ Hdv), (words_of_Some _ _ _ Hempty) in Hmin.
    simpl in Hmin. apply nil_length_inv. lia. }
  unfold order_domain_values, domain_get. rewrite Hdv. done.
Qed.

(** The budget that lets [solve] run to its end. *)
Definition solve_fuel : nat :=
  S (List.length (variables crossword)
     + List.length (all_arcs crossword)
     + List.length (variables crossword)
       * total_words crossword
           (enforce_node_consistency (init_domains crossword))).

Lemma init_node_consistent :
  node_consistent crossword (enforce_node_consistency (init_domains crossword)).
Proof.
  apply enforce_node_consistency_consistent. intros v Hv.
  rewrite init_domains_lookup by done. eauto.
Qed.

Lemma init_within s :
  is_solution crossword s →
  within s (enforce_node_consistency (init_domains crossword)).
Proof.
  intros (_ & Hkeys & Hwords & _ & Hlen & _) v w Hin.
  assert (v ∈ variables crossword) as Hv.
  { apply Hkeys, list_elem_of_fmap. by exists (v, w). }
  unfold words_of.
  rewrite enforce_node_consistency_lookup, init_domains_lookup by done.
  simpl. apply list_elem_of_filter. eauto.
Qed.

(** With overlap indices in bounds, [solve] returns within [solve_fuel]
    and raises nothing. *)
Lemma solve_total fuel :
  overlaps_in_bounds crossword (variables crossword) →
  solve_fuel ≤ fuel →
  ∃ sol, create_and_solve crossword fuel = Ok sol.
Proof.
  intros Hb Hfuel. unfold solve_fuel in Hfuel.
  unfold create_and_solve, solve, ac3.
  destruct (ac3_loop_total crossword Hb fuel (all_arcs crossword)
              (enforce_node_consistency (init_domains crossword)))
    as (b & domains2 & Hac3);
    [apply all_arcs_proper|apply init_node_consistent|lia|].
  rewrite Hac3. simpl. apply ac3_loop_run, ac3_run_le in Hac3.
  destruct (backtrack_total crossword domains2 Hb) with (fuel := fuel)
    (assignment := @nil (Var.t * str)) as [r ->].
  - eapply node_consistent_le; [done|]. apply init_node_consistent.
  - by intros ? ?%elem_of_nil.
  - unfold unassigned. pose proof (length_filter
      (λ var, var ∉ dict_keys (@nil (Var.t * str))) (variables crossword)).
    lia.
  - simpl. eauto.
Qed.

Lemma solve_finds s fuel :
  is_solution crossword s →
  solve_fuel ≤ fuel →
  ∃ sol result,
    create_and_solve crossword fuel = Ok sol
    ∧ solution sol = Some result
    ∧ is_solution crossword result.
Proof.
  intros Hs Hfuel. unfold solve_fuel in Hfuel.
  pose proof (solution_in_bounds crossword s Hs) as Hb.
  assert (∃ sol result, create_and_solve crossword fuel = Ok sol
                      ∧ solution sol = Some result)
    as (sol & result & Hsol & Hres).
  { unfold create_and_solve, solve, ac3.
    destruct (ac3_loop_total crossword Hb fuel (all_arcs crossword)
                (enforce_node_consistency (init_domains crossword)))
      as (b & domains2 & Hac3);
      [apply all_arcs_proper|apply init_node_consistent|lia|].
    rewrite Hac3. simpl. apply ac3_loop_run in Hac3.
    destruct (backtrack_complete crossword domains2 s Hs) with (fuel := fuel)
      (assignment := @nil (Var.t * str)) as (r & result & -> & Hres).
    - eapply ac3_run_within; eauto using all_arcs_proper, init_within.
    - eapply node_consistent_le; [by eapply ac3_run_le|].
      apply init_node_consistent.
    - by intros ? ?%elem_of_nil.
    - constructor.
    - unfold unassigned. pose proof (length_filter
        (λ var, var ∉ dict_keys (@nil (Var.t * str))) (variables crossword)).
      lia.
    - simpl. eauto. }
  exists sol, result. split; [done|]. split; [done|].
  destruct (solve_result_sound _ _ _ _ _ Hsol Hres)
    as (Hall & Helem & Hnd & _ & Hspec).
  split; [done|]. split; [|split; [|done]].
  - intros v. split.
    + intros ([v' w] & -> & Hin)%list_elem_of_fmap. by apply Helem in Hin as [? _].
    + intros [w Hw]%Hall. apply list_elem_of_fmap. by exists (v, w).
  - intros v w [Hv Hw]%Helem. unfold words_of in Hw.
    by rewrite init_domains_lookup in Hw.
Qed.

(** C3. Backtracking completeness: when some total assignment of
    vocabulary words to the variables is consistent, [solve] returns an
    assignment (itself such a solution), so it returns None only when no
    such assignment exists. *)
Theorem solve_complete s fuel :
  is_solution crossword s →
  solve_fuel ≤ fuel →
  ∃ sol result,
    create_and_solve crossword fuel = Ok sol
    ∧ solution sol = Some result
    ∧ is_solution crossword result.
Proof. apply solve_finds. Qed.

(** C1, as the code has it.  When [ac3()] returns False on the
    node-consistent domains, [solve] still calls [backtrack], once; that
    call finds a variable with an empty domain and returns None, which
    [solve] returns. *)
Theorem solve_after_failed_ac3 fuel domains domains2 :
  (∀ v, v ∈ variables crossword → is_Some (domains !! v)) →
  ac3 crossword fuel None (enforce_node_consistency domains)
    = Ok (false, domains2) →
  solve crossword fuel domains =
  Ok {| solution := None; final_domains := domains2;
        backtrack_invocations := 1 |}.
Proof.
  intros Hdom Hac3. unfold solve. rewrite Hac3. simpl.
  destruct fuel as [|fuel].
  { unfold ac3 in Hac3. by destruct (all_arcs crossword) as [|[]]. }
  apply ac3_loop_run in Hac3. pose proof (ac3_run_le _ _ _ _ _ Hac3) as Hle.
  destruct (ac3_run_false _ _ _ Hac3 all_arcs_proper) as (x & Hx & Hempty).
  rewrite (backtrack_empty_domain fuel domains2 x); [done| |done..].
  intros v Hv. apply domains_le_alt in Hle as [Hkeys _]. apply Hkeys.
  rewrite enforce_node_consistency_lookup. apply fmap_is_Some. auto.
Qed.

End Solve.

(** ** The budgets do not matter *)

Section Budget.

Context (crossword : Crossword).
Implicit Types (assignment : list (Var.t * str)) (domains : gmap Var.t (list str)).

(** A run of [ac3] that returns within a budget returns the same with any
    larger one. *)
Lemma ac3_loop_fuel_mono fuel : ∀ fuel' queue domains r,
  fuel ≤ fuel' →
  ac3_loop crossword fuel queue domains = Ok r →
  ac3_loop crossword fuel' queue domains = Ok r.
Proof.
  induction fuel as [|fuel IH]; intros fuel' [|[x y] queue] domains r Hle H;
    simpl in H; try discriminate.
  - by destruct fuel'.
  - by destruct fuel'.
  - destruct fuel' as [|fuel']; [lia|]. simpl.
    bind_inv H. rewrite Hstep. simpl. destruct a as [[] domains1].
    + bind_inv H. rewrite Hstep0. simpl. case_decide; [done|].
      apply IH; [lia|done].
    + apply IH; [lia|done].
Qed.

Lemma backtrack_values_mono recurse recurse' var :
  (∀ a r, recurse a = Ok r → recurse' a = Ok r) →
  ∀ values assignment calls r,
    backtrack_values crossword recurse var values assignment calls = Ok r →
    backtrack_values crossword recurse' var values assignment calls = Ok r.
Proof.
  intros Hrec. induction values as [|value values IH];
    intros assignment calls r H; simpl in *; [done|].
  bind_inv H. rewrite Hstep. simpl. destruct a.
  - bind_inv H. rewrite (Hrec _ _ Hstep0). simpl.
    destruct (returned a); [done|]. bind_inv H. rewrite Hstep1. simpl. auto.
  - bind_inv H. rewrite Hstep0. simpl. auto.
Qed.

(** A call of [backtrack] that returns within a recursion budget returns
    the same with any larger one. *)
Lemma backtrack_fuel_mono fuel : ∀ fuel' domains assignment r,
  fuel ≤ fuel' →
  backtrack crossword fuel domains assignment = Ok r →
  backtrack crossword fuel' domains assignment = Ok r.
Proof.
  induction fuel as [|fuel IH]; intros fuel' domains assignment r Hle H;
    simpl in H; [done|].
  destruct fuel' as [|fuel']; [lia|]. simpl.
  destruct (assignment_complete crossword assignment); [done|].
  bind_inv H. rewrite Hstep. simpl. destruct a as [var|]; [|done].
  bind_inv H. rewrite Hstep0. simpl.
  eapply backtrack_values_mono; [|done]. intros a1 r1. apply IH. lia.
Qed.

Lemma solve_fuel_mono fuel fuel' domains sol :
  fuel ≤ fuel' →
  solve crossword fuel domains = Ok sol →
  solve crossword fuel' domains = Ok sol.
Proof.
  unfold solve, ac3. intros Hle H. bind_inv H.
  rewrite (ac3_loop_fuel_mono _ _ _ _ _ Hle Hstep). simpl.
  destruct a as [b domains2]. bind_inv H.
  by rewrite (backtrack_fuel_mono _ _ _ _ _ Hle Hstep0).
Qed.

End Budget.

(** ** Worked examples on the sample instances *)

Section Instances.

Import Samples.

(** The domains of both sample instances after node consistency. *)
Definition cat_car_art_domains : gmap Var.t (list str) :=
  enforce_node_consistency (init_domains cat_car_art).
Definition cat_dog_domains : gmap Var.t (list str) :=
  enforce_node_consistency (init_domains cat_dog).

Lemma cross_symmetric (cw : Crossword) :
  variables cw = [A; B] → overlaps cw = cross_overlaps →
  symmetric_overlaps cw.
Proof.
  intros Hv Ho x y i j. rewrite Hv, Ho. intros Hx Hy.
  apply elem_of_cons in Hx as [->|[->|[]%elem_of_nil]%elem_of_cons];
    apply elem_of_cons in Hy as [->|[->|[]%elem_of_nil]%elem_of_cons];
    intros Hne; try done; vm_compute; congruence.
Qed.

Lemma cross_in_bounds (cw : Crossword) (vars : list Var.t) :
  vars ⊆ [A; B] → overlaps cw = cross_overlaps →
  overlaps_in_bounds cw vars.
Proof.
  intros Hv Ho x y i j Hx%Hv Hy%Hv. rewrite Ho.
  apply elem_of_cons in Hx as [->|[->|[]%elem_of_nil]%elem_of_cons];
    apply elem_of_cons in Hy as [->|[->|[]%elem_of_nil]%elem_of_cons];
    intros Hne; try done; vm_compute; intros [= <- <-]; lia.
Qed.

(** A solution can be checked by running [consistent] on it. *)
Lemma is_solution_intro (cw : Crossword) (s : list (Var.t * str)) :
  NoDup (dict_keys s) →
  Forall (λ v, v ∈ variables cw) (dict_keys s) →
  Forall (λ v, v ∈ dict_keys s) (variables cw) →
  Forall (λ vw, vw.2 ∈ words cw) s →
  consistent cw s = Ok true →
  is_solution cw s.
Proof.
  rewrite !Forall_forall. intros Hnd H1 H2 H3 Hc.
  split; [done|]. split; [split; auto|]. split.
  - intros v w Hin. by apply (H3 (v, w)).
  - by apply consistent_true_iff.
Qed.

End Instances.

(** C1, as stated, fails on [cat_dog]: [ac3] returns False there and
    [solve] returns None, but after one invocation of [backtrack]. *)
Lemma solve_invokes_backtrack :
  ∃ domains2 sol,
    ac3 Samples.cat_dog 20 None cat_dog_domains = Ok (false, domains2)
    ∧ create_and_solve Samples.cat_dog 20 = Ok sol
    ∧ solution sol = None
    ∧ backtrack_invocations sol = 1.
Proof.
  eexists _, _. split; [vm_compute; reflexivity|].
  split; [vm_compute; reflexivity|]. split; reflexivity.
Qed.

Lemma solve_after_failed_ac3_witness :
  ∃ domains2,
    ac3 Samples.cat_dog 20 None cat_dog_domains = Ok (false, domains2)
    ∧ solve Samples.cat_dog 20 (init_domains Samples.cat_dog) =
      Ok {| solution := None; final_domains := domains2;
            backtrack_invocations := 1 |}.
Proof.
  eexists. split; [vm_compute; reflexivity|].
  apply (solve_after_failed_ac3 Samples.cat_dog 20 (init_domains Samples.cat_dog)).
  - intros v Hv. rewrite init_domains_lookup by done. eauto.
  - vm_compute. reflexivity.
Defined.

Lemma solve_sound_witness :
  ∃ sol,
    solve Samples.cat_car_art 20 (init_domains Samples.cat_car_art) = Ok sol
    ∧ solution sol = Some [(Samples.B, "ART"); (Samples.A, "CAT")]%string
    ∧ consistent_spec Samples.cat_car_art
        [(Samples.B, "ART"); (Samples.A, "CAT")]%string.
Proof.
  eexists. split; [vm_compute; reflexivity|]. split; [reflexivity|].
  eapply (solve_sound Samples.cat_car_art 20 (init_domains Samples.cat_car_art)).
  - vm_compute. reflexivity.
  - reflexivity.
Defined.

Lemma solve_complete_witness :
  is_solution Samples.cat_car_art [(Samples.A, "CAR"); (Samples.B, "ART")]%string
  ∧ ∃ sol result,
      create_and_solve Samples.cat_car_art (solve_fuel Samples.cat_car_art)
        = Ok sol
      ∧ solution sol = Some result
      ∧ is_solution Samples.cat_car_art result.
Proof.
  assert (is_solution Samples.cat_car_art
            [(Samples.A, "CAR"); (Samples.B, "ART")]%string) as Hs.
  { apply is_solution_intro; [compute_done..|vm_compute; reflexivity]. }
  split; [exact Hs|].
  apply (solve_complete Samples.cat_car_art _ _ Hs). reflexivity.
Defined.

Lemma ac3_sound_witness :
  ∃ domains',
    ac3 Samples.cat_car_art 20 None cat_car_art_domains = Ok (true, domains')
    ∧ ∃ w', w' ∈ words_of domains' Samples.B
          ∧ letters_agree "CAT" 1 w' 0.
Proof.
  eexists. split; [vm_compute; reflexivity|].
  apply (ac3_sound Samples.cat_car_art 20 cat_car_art_domains _
           (cross_symmetric Samples.cat_car_art eq_refl eq_refl) ltac:(vm_compute; reflexivity)
           Samples.A Samples.B 1 0); compute_done.
Defined.

Lemma revise_contract_witness :
  revise Samples.cat_car_art Samples.B Samples.A cat_car_art_domains
    = Ok (true, <[Samples.B := ["ART"]%string]> cat_car_art_domains)
  ∧ ∀ w, w ∈ ["CAT"; "CAR"; "ART"]%string →
      (w ∉ ["ART"]%string ↔
       ¬ ∃ w', w' ∈ ["CAT"; "CAR"; "ART"]%string ∧ letters_agree w 0 w' 1).
Proof.
  assert (revise Samples.cat_car_art Samples.B Samples.A cat_car_art_domains
          = Ok (true, <[Samples.B := ["ART"]%string]> cat_car_art_domains))
    as Hr by (vm_compute; reflexivity).
  split; [exact Hr|].
  pose proof (revise_contract Samples.cat_car_art _ _ _ _ _ Hr) as Hc.
  change (overlaps Samples.cat_car_art Samples.B Samples.A)
    with (Some (0, 1)) in Hc.
  destruct Hc as (_ & _ & Hc & _). exact Hc.
Defined.

Lemma consistent_characterization_witness :
  NoDup (dict_keys [(Samples.A, "CAT"); (Samples.B, "ART")]%string)
  ∧ consistent_spec Samples.cat_car_art
      [(Samples.A, "CAT"); (Samples.B, "ART")]%string.
Proof.
  assert (NoDup (dict_keys [(Samples.A, "CAT"); (Samples.B, "ART")]%string))
    as Hnd by compute_done.
  split; [exact Hnd|].
  apply (consistent_characterization Samples.cat_car_art _ Hnd).
  vm_compute. reflexivity.
Defined.

Lemma backtrack_undo_witness :
  ∃ r,
    backtrack Samples.cat_dog 5 cat_dog_domains [(Samples.A, "CAT"%string)]
      = Ok r
    ∧ returned r = None
    ∧ assignment_at_return r = [(Samples.A, "CAT"%string)].
Proof.
  eexists. split; [vm_compute; reflexivity|]. split; [reflexivity|].
  apply (backtrack_undo Samples.cat_dog 5 cat_dog_domains).
  - vm_compute. reflexivity.
  - reflexivity.
Defined.

(** The domains of [cat_car_art] once [ac3] has run: [A] is left with
    two words and [B] with one. *)
Definition cat_car_art_pruned : gmap Var.t (list str) :=
  <[Samples.A := ["CAT"; "CAR"]%string]>
    (<[Samples.B := ["ART"]%string]> cat_car_art_domains).

Lemma select_unassigned_variable_contract_witness :
  (∀ v, v ∈ variables Samples.cat_car_art →
        is_Some (cat_car_art_pruned !! v))
  ∧ key_of Samples.cat_car_art cat_car_art_pruned Samples.A = (2, -1)%Z
  ∧ key_of Samples.cat_car_art cat_car_art_pruned Samples.B = (1, -1)%Z
  ∧ select_unassigned_variable Samples.cat_car_art [] cat_car_art_pruned
    = Ok (Some Samples.B)
  ∧ ∃ v, select_unassigned_variable Samples.cat_car_art [] cat_car_art_pruned
         = Ok (Some v)
       ∧ v ∈ variables Samples.cat_car_art
       ∧ (v ∉ dict_keys (@nil (Var.t * str)))
       ∧ ∀ u, u ∈ variables Samples.cat_car_art →
           u ∉ dict_keys (@nil (Var.t * str)) →
           tuple_le (key_of Samples.cat_car_art cat_car_art_pruned v)
                    (key_of Samples.cat_car_art cat_car_art_pruned u).
Proof.
  assert (∀ v, v ∈ variables Samples.cat_car_art →
               is_Some (cat_car_art_pruned !! v)) as Hdom.
  { intros v [->|[->|[]%elem_of_nil]%elem_of_cons]%elem_of_cons;
      vm_compute; eauto. }
  split; [exact Hdom|]. split; [vm_compute; reflexivity|].
  split; [vm_compute; reflexivity|]. split; [vm_compute; reflexivity|].
  apply (select_unassigned_variable_contract Samples.cat_car_art [] _ Hdom).
  exists Samples.A. split; compute_done.
Defined.

Lemma consistent_safe_witness :
  overlaps_in_bounds Samples.cat_car_art
    (dict_keys [(Samples.A, "CATS"); (Samples.B, "ART")]%string)
  ∧ consistent Samples.cat_car_art
      [(Samples.A, "CATS"); (Samples.B, "ART")]%string = Ok false.
Proof.
  assert (overlaps_in_bounds Samples.cat_car_art
            (dict_keys [(Samples.A, "CATS"); (Samples.B, "ART")]%string))
    as Hb by (by apply cross_in_bounds).
  split; [exact Hb|].
  apply (consistent_safe Samples.cat_car_art _ Hb).
  apply Exists_cons_hd. vm_compute. discriminate.
Defined.

(** * The letter grid *)

(** ** [letter_grid] *)

(** The 2D array [letters]: rows of cells, a cell being [None] or a letter. *)
Abbreviation Grid := (list (list (option ascii))) (only parsing).

(** The cell the [k]-th letter of [variable] goes to:
    [(variable.i + (k if direction == DOWN else 0),
      variable.j + (k if direction == ACROSS else 0))]. *)
Definition letter_cell (variable : Var.t) (k : nat) : nat * nat :=
  (Var.i variable
     + (if decide (Var.direction variable = DOWN) then k else 0),
   Var.j variable
     + (if decide (Var.direction variable = ACROSS) then k else 0)).

Arguments letter_cell : simpl never.

(** [letters[i][j] = c]: both indexings raise [IndexError] out of range. *)
Definition grid_set (letters : Grid) (i j : nat) (c : ascii) : outcome Grid :=
  match letters !! i with
  | None => Raise IndexError
  | Some row =>
      if decide (j < List.length row)
      then Ok (<[i := <[j := Some c]> row]> letters)
      else Raise IndexError
  end.

(** The loop [for k in range(len(word))]. *)
Fixpoint write_word (variable : Var.t) (word : str) (ks : list nat)
    (letters : Grid) : outcome Grid :=
  match ks with
  | [] => Ok letters
  | k :: ks' =>
      c ← str_index word k;
      letters' ← grid_set letters (letter_cell variable k).1
                   (letter_cell variable k).2 c;
      write_word variable word ks' letters'
  end.

(** The loop [for variable, word in assignment.items()]. *)
Fixpoint write_words (items : list (Var.t * str)) (letters : Grid)
  : outcome Grid :=
  match items with
  | [] => Ok letters
  | (variable, word) :: items' =>
      letters' ← write_word variable word (seq 0 (String.length word)) letters;
      write_words items' letters'
  end.

(** [letter_grid(assignment)]; [height] and [width] are
    [self.crossword.height] and [self.crossword.width]. *)
Definition letter_grid (height width : nat) (assignment : list (Var.t * str))
  : outcome Grid :=
  write_words assignment (replicate height (replicate width None)).

(** ** Properties of [letter_grid] *)

(** [letters[r][c]], when both indices are in range. *)
Definition grid_at (letters : Grid) (r c : nat) : option (option ascii) :=
  row ← letters !! r; row !! c.

(** The grid has [height] rows of [width] cells. *)
Definition grid_shape (height width : nat) (letters : Grid) : Prop :=
  List.length letters = height
  ∧ Forall (λ row, List.length row = width) letters.

(** The [k]-th cell of every entry, for [k] below the length of its word,
    lies within [height] rows and [width] columns. *)
Definition fits (height width : nat) (items : list (Var.t * str)) : Prop :=
  Forall (λ vw, ∀ k, k < String.length vw.2 →
                  (letter_cell vw.1 k).1 < height
                  ∧ (letter_cell vw.1 k).2 < width) items.

(** What the entries write to the cell [(r, c)], starting from [old]:
    the letter of the last write to that cell. *)
Fixpoint painted_word (variable : Var.t) (word : str) (ks : list nat)
    (r c : nat) (old : option ascii) : option ascii :=
  match ks with
  | [] => old
  | k :: ks' =>
      painted_word variable word ks' r c
        (if decide (letter_cell variable k = (r, c))
         then String.get k word else old)
  end.

Fixpoint painted (items : list (Var.t * str)) (r c : nat)
    (old : option ascii) : option ascii :=
  match items with
  | [] => old
  | (variable, word) :: items' =>
      painted items' r c
        (painted_word variable word (seq 0 (String.length word)) r c old)
  end.

Lemma grid_shape_replicate height width :
  grid_shape height width (replicate height (replicate width None)).
Proof.
  split; [by rewrite length_replicate|].
  apply Forall_replicate. by rewrite length_replicate.
Qed.

Lemma grid_at_replicate height width r c :
  r < height → c < width →
  grid_at (replicate height (replicate width None)) r c = Some None.
Proof.
  intros Hr Hc. unfold grid_at.
  rewrite lookup_replicate_2 by done. simpl. by rewrite lookup_replicate_2.
Qed.

Lemma grid_set_Ok height width (letters : Grid) i j ch :
  grid_shape height width letters → i < height → j < width →
  ∃ letters', grid_set letters i j ch = Ok letters'.
Proof.
  intros [Hlen Hrows] Hi Hj. unfold grid_set.
  destruct (letters !! i) as [row|] eqn:Hrow.
  - rewrite Forall_forall in Hrows.
    rewrite (Hrows row) by (by eapply list_elem_of_lookup_2).
    rewrite decide_True by done. eauto.
  - apply lookup_ge_None in Hrow. lia.
Qed.

Lemma grid_set_spec height width (letters letters' : Grid) i j ch :
  grid_shape height width letters →
  grid_set letters i j ch = Ok letters' →
  i < height ∧ j < width
  ∧ grid_shape height width letters'
  ∧ ∀ r c, grid_at letters' r c =
           if decide ((i, j) = (r, c)) then Some (Some ch)
           else grid_at letters r c.
Proof.
  intros [Hlen Hrows] H. unfold grid_set in H.
  destruct (letters !! i) as [row|] eqn:Hrow; [|done].
  case_decide as Hj; [|done]. injection H as <-.
  assert (i < List.length letters) as Hi by (by eapply lookup_lt_Some).
  rewrite Forall_forall in Hrows.
  assert (List.length row = width) as Hw
    by (by apply Hrows; eapply list_elem_of_lookup_2).
  split; [lia|]. split; [lia|]. split.
  - split; [by rewrite length_insert|]. apply Forall_forall.
    intros row' Hin. apply list_elem_of_lookup in Hin as [r Hr].
    destruct (decide (i = r)) as [->|Hne].
    + rewrite list_lookup_insert_eq in Hr by done. injection Hr as <-.
      by rewrite length_insert.
    + rewrite list_lookup_insert_ne in Hr by done.
      apply Hrows. by eapply list_elem_of_lookup_2.
  - intros r c. unfold grid_at. destruct (decide (i = r)) as [->|Hne].
    + rewrite list_lookup_insert_eq by done. simpl.
      destruct (decide (j = c)) as [->|Hne].
      * rewrite decide_True by done. by rewrite list_lookup_insert_eq.
      * rewrite decide_False by congruence. rewrite Hrow. simpl.
        by rewrite list_lookup_insert_ne.
    + rewrite decide_False by congruence. by rewrite list_lookup_insert_ne.
Qed.

Lemma write_word_spec height width variable word ks :
  ∀ (letters letters' : Grid),
    grid_shape height width letters →
    write_word variable word ks letters = Ok letters' →
    grid_shape height width letters'
    ∧ Forall (λ k, k < String.length word
                 ∧ (letter_cell variable k).1 < height
                 ∧ (letter_cell variable k).2 < width) ks
    ∧ ∀ r c old, grid_at letters r c = Some old →
        grid_at letters' r c = Some (painted_word variable word ks r c old).
Proof.
  induction ks as [|k ks IH]; intros letters letters' Hshape H; simpl in H.
  - injection H as <-. split; [done|]. split; [constructor|]. done.
  - bind_inv H. bind_inv H. apply str_index_Ok in Hstep.
    destruct (grid_set_spec _ _ _ _ _ _ _ Hshape Hstep0)
      as (Hi & Hj & Hshape' & Hat).
    destruct (IH _ _ Hshape' H) as (Hshape'' & Hks & Hpaint).
    split; [done|]. split.
    + constructor; [|done]. split; [|done].
      apply get_Some_lt. eauto.
    + intros r c old Hold. simpl. apply Hpaint. rewrite Hat.
      transitivity (if decide (letter_cell variable k = (r, c))
                    then Some (Some a) else grid_at letters r c);
        [reflexivity|].
      destruct (decide (letter_cell variable k = (r, c)));
        [by rewrite Hstep|done].
Qed.

Lemma write_word_Ok height width variable word ks :
  ∀ (letters : Grid),
    grid_shape height width letters →
    Forall (λ k, k < String.length word
               ∧ (letter_cell variable k).1 < height
               ∧ (letter_cell variable k).2 < width) ks →
    ∃ letters', write_word variable word ks letters = Ok letters'.
Proof.
  induction ks as [|k ks IH]; intros letters Hshape Hks; cbn; [eauto|].
  apply Forall_cons in Hks as [(Hk & Hi & Hj) Hks].
  destruct (str_index_lt _ _ Hk) as [ch ->]. cbn.
  destruct (grid_set_Ok _ _ letters _ _ ch Hshape Hi Hj) as [letters' Hset].
  rewrite Hset. cbn. apply IH; [|done].
  by destruct (grid_set_spec _ _ _ _ _ _ _ Hshape Hset) as (_ & _ & ? & _).
Qed.

Lemma write_words_spec height width items :
  ∀ (letters letters' : Grid),
    grid_shape height width letters →
    write_words items letters = Ok letters' →
    grid_shape height width letters'
    ∧ fits height width items
    ∧ ∀ r c old, grid_at letters r c = Some old →
        grid_at letters' r c = Some (painted items r c old).
Proof.
  induction items as [|[variable word] items IH];
    intros letters letters' Hshape H; simpl in H.
  - injection H as <-. split; [done|]. split; [constructor|]. done.
  - bind_inv H.
    destruct (write_word_spec _ _ _ _ _ _ _ Hshape Hstep)
      as (Hshape' & Hks & Hpaint).
    destruct (IH _ _ Hshape' H) as (Hshape'' & Hfits & Hpaint').
    split; [done|]. split.
    + constructor; [|done]. simpl. intros k Hk.
      rewrite Forall_forall in Hks.
      apply (Hks k). apply elem_of_seq. lia.
    + intros r c old Hold. simpl. auto.
Qed.

Lemma write_words_Ok height width items :
  ∀ (letters : Grid),
    grid_shape height width letters →
    fits height width items →
    ∃ letters', write_words items letters = Ok letters'.
Proof.
  induction items as [|[variable word] items IH]; intros letters Hshape Hfits;
    simpl; [eauto|].
  apply Forall_cons in Hfits as [Hfit Hfits]. simpl in Hfit.
  destruct (write_word_Ok height width variable word
              (seq 0 (String.length word)) letters Hshape) as [letters' Hw].
  { apply Forall_forall. intros k [_ Hk]%elem_of_seq. split; [lia|].
    apply Hfit. lia. }
  rewrite Hw. simpl. apply IH; [|done].
  by destruct (write_word_spec _ _ _ _ _ _ _ Hshape Hw) as (? & _).
Qed.

Lemma write_words_IndexError items :
  ∀ (letters : Grid),
    (∃ letters', write_words items letters = Ok letters')
    ∨ write_words items letters = Raise IndexError.
Proof.
  assert (∀ variable word ks (letters : Grid),
            (∃ letters', write_word variable word ks letters = Ok letters')
            ∨ write_word variable word ks letters = Raise IndexError) as Hword.
  { intros variable word ks. induction ks as [|k ks IH]; intros letters; cbn;
      [eauto|].
    unfold str_index. destruct (String.get k word); cbn; [|auto].
    unfold grid_set. destruct (letters !! _); cbn; [|auto].
    case_decide; cbn; auto. }
  induction items as [|[variable word] items IH]; intros letters; cbn; [eauto|].
  destruct (Hword variable word (seq 0 (String.length word)) letters)
    as [[letters' ->]| ->]; cbn; auto.
Qed.

Lemma letter_cell_inj variable k k' :
  letter_cell variable k = letter_cell variable k' → k = k'.
Proof.
  unfold letter_cell. destruct (Var.direction variable); simpl;
    intros H; injection H; lia.
Qed.

Lemma painted_word_cases variable word ks r c :
  ∀ old,
    (painted_word variable word ks r c old = old
     ∧ ∀ k, k ∈ ks → letter_cell variable k ≠ (r, c))
    ∨ (∃ k, k ∈ ks ∧ letter_cell variable k = (r, c)
          ∧ painted_word variable word ks r c old = String.get k word).
Proof.
  induction ks as [|k ks IH]; intros old; simpl.
  - left. split; [done|]. by intros k ?%elem_of_nil.
  - destruct (IH (if decide (letter_cell variable k = (r, c))
                  then String.get k word else old))
      as [[-> Hno]|(k' & Hk' & Hcell & ->)].
    + case_decide as Hc.
      * right. exists k. split; [left|done].
      * left. split; [done|]. intros k' [->|?]%elem_of_cons; auto.
    + right. exists k'. split; [by right|done].
Qed.

Lemma painted_cases items r c :
  ∀ old,
    (painted items r c old = old
     ∧ ∀ v w k, (v, w) ∈ items → k < String.length w →
         letter_cell v k ≠ (r, c))
    ∨ (∃ v w k, (v, w) ∈ items ∧ k < String.length w
          ∧ letter_cell v k = (r, c)
          ∧ painted items r c old = String.get k w).
Proof.
  induction items as [|[variable word] items IH]; intros old; simpl.
  - left. split; [done|]. by intros v w k ?%elem_of_nil.
  - destruct (IH (painted_word variable word (seq 0 (String.length word))
                    r c old))
      as [[-> Hno]|(v & w & k & Hin & Hk & Hcell & ->)].
    + destruct (painted_word_cases variable word
                  (seq 0 (String.length word)) r c old)
        as [[-> Hno']|(k & Hk & Hcell & ->)].
      * left. split; [done|].
        intros v w k [[= -> ->]|?]%elem_of_cons Hk; [|eauto].
        apply Hno', elem_of_seq. lia.
      * right. exists variable, word, k. apply elem_of_seq in Hk.
        split; [left|]. split; [lia|done].
    + right. exists v, w, k. split; [by right|done].
Qed.

(** Entries agree wherever two of them cover the same cell. *)
Definition cells_agree (items : list (Var.t * str)) : Prop :=
  ∀ v1 w1 k1 c1 v2 w2 k2 c2,
    (v1, w1) ∈ items → (v2, w2) ∈ items →
    letter_cell v1 k1 = letter_cell v2 k2 →
    String.get k1 w1 = Some c1 → String.get k2 w2 = Some c2 → c1 = c2.

Lemma letter_grid_spec height width assignment (letters : Grid) :
  letter_grid height width assignment = Ok letters →
  grid_shape height width letters
  ∧ fits height width assignment
  ∧ ∀ r c, r < height → c < width →
      grid_at letters r c = Some (painted assignment r c None).
Proof.
  unfold letter_grid. intros H.
  destruct (write_words_spec height width _ _ _
              (grid_shape_replicate height width) H) as (Hshape & Hfits & Hp).
  split; [done|]. split; [done|]. intros r c Hr Hc.
  apply Hp. by apply grid_at_replicate.
Qed.

(** X15. [letter_grid] returns a grid, of [height] rows of [width] cells,
    exactly when every letter of every assigned word falls inside the
    grid; otherwise it raises [IndexError]. *)
Theorem letter_grid_bounds height width assignment :
  (fits height width assignment ↔
   ∃ letters, letter_grid height width assignment = Ok letters
            ∧ grid_shape height width letters)
  ∧ (¬ fits height width assignment ↔
     letter_grid height width assignment = Raise IndexError).
Proof.
  assert (fits height width assignment ↔
          ∃ letters, letter_grid height width assignment = Ok letters
                   ∧ grid_shape height width letters) as Hiff.
  { split.
    - intros Hfits.
      destruct (write_words_Ok height width assignment
                  (replicate height (replicate width None))
                  (grid_shape_replicate height width) Hfits) as [letters H].
      exists letters. split; [done|]. by apply letter_grid_spec in H as [? _].
    - intros (letters & H & _). by apply letter_grid_spec in H as (_ & ? & _). }
  split; [done|]. rewrite Hiff. split.
  - intros Hno.
    destruct (write_words_IndexError assignment
                (replicate height (replicate width None)))
      as [[letters H]|H]; [|done].
    destruct Hno. exists letters. split; [done|].
    by apply letter_grid_spec in H as [? _].
  - intros H (letters & H' & _). congruence.
Qed.

(** X16. Reading the grid back.  When the entries of the assignment agree
    on the cells they share, the grid shows every letter of every
    assigned word at its cell, and every cell that no word covers is
    [None]. *)
Theorem letter_grid_read_back height width assignment (letters : Grid) :
  letter_grid height width assignment = Ok letters →
  cells_agree assignment →
  (∀ variable word k ch,
     (variable, word) ∈ assignment → String.get k word = Some ch →
     grid_at letters (letter_cell variable k).1 (letter_cell variable k).2
     = Some (Some ch))
  ∧ (∀ r c, r < height → c < width →
       (∀ variable word k, (variable, word) ∈ assignment →
          k < String.length word → letter_cell variable k ≠ (r, c)) →
       grid_at letters r c = Some None).
Proof.
  intros (_ & Hfits & Hp)%letter_grid_spec Hagree. split.
  - intros variable word k ch Hin Hget.
    assert (k < String.length word) as Hk by (apply get_Some_lt; eauto).
    unfold fits in Hfits. rewrite Forall_forall in Hfits.
    destruct (Hfits _ Hin k Hk) as [Hr Hc]. cbn in Hr, Hc.
    rewrite (Hp _ _ Hr Hc). f_equal.
    destruct (painted_cases assignment (letter_cell variable k).1
                (letter_cell variable k).2 None)
      as [[_ Hno]|(v & w & k' & Hin' & Hk' & Hcell & ->)].
    + destruct (Hno _ _ _ Hin Hk). by destruct (letter_cell variable k).
    + apply get_Some_lt in Hk' as [ch' Hch']. rewrite Hch'. f_equal.
      eapply (Hagree v w k' ch' variable word k ch); eauto.
  - intros r c Hr Hc Hno. rewrite (Hp _ _ Hr Hc). f_equal.
    destruct (painted_cases assignment r c None)
      as [[-> _]|(v & w & k & Hin & Hk & Hcell & _)]; [done|].
    by destruct (Hno _ _ _ Hin Hk).
Qed.

(** X17. Later entries win.  Whatever the entries hold, a cell shows the
    letter of the last entry of the assignment (in insertion order) that
    covers it. *)
Theorem letter_grid_last_wins height width before variable word after
    (letters : Grid) k ch :
  letter_grid height width (before ++ (variable, word) :: after) = Ok letters →
  String.get k word = Some ch →
  (∀ v w k', (v, w) ∈ after → k' < String.length w →
     letter_cell v k' ≠ letter_cell variable k) →
  grid_at letters (letter_cell variable k).1 (letter_cell variable k).2
  = Some (Some ch).
Proof.
  intros (_ & Hfits & Hp)%letter_grid_spec Hget Hafter.
  assert (k < String.length word) as Hk by (apply get_Some_lt; eauto).
  unfold fits in Hfits. rewrite Forall_forall in Hfits.
  destruct (Hfits (variable, word)) with (k := k) as [Hr Hc];
    [apply elem_of_app; right; left|done|]. cbn in Hr, Hc.
  rewrite (Hp _ _ Hr Hc). f_equal.
  assert (∀ items old, painted (items ++ (variable, word) :: after)
            (letter_cell variable k).1 (letter_cell variable k).2 old
          = Some ch) as Hpainted; [|apply Hpainted].
  induction items as [|[v w] items IH]; intros old; [|apply IH].
  cbn.
  destruct (painted_cases after (letter_cell variable k).1
              (letter_cell variable k).2
              (painted_word variable word (seq 0 (String.length word))
                 (letter_cell variable k).1 (letter_cell variable k).2 old))
    as [[-> _]|(v & w & k' & Hin & Hk' & Hcell & _)].
  - destruct (painted_word_cases variable word (seq 0 (String.length word))
                (letter_cell variable k).1 (letter_cell variable k).2 old)
      as [[_ Hno]|(k' & _ & Hcell & ->)].
    + destruct (Hno k); [apply elem_of_seq; lia|].
      by destruct (letter_cell variable k).
    + rewrite (letter_cell_inj variable k' k); [done|].
      rewrite Hcell. by destruct (letter_cell variable k).
  - destruct (Hafter _ _ _ Hin Hk'). rewrite Hcell.
    by destruct (letter_cell variable k).
Qed.

(** * Further properties of the solver *)

(** ** Node consistency *)

(** X1. After [__init__] and [enforce_node_consistency], exactly the
    variables of the instance have a domain, and the domain of a variable
    holds exactly the vocabulary words that have the length of the
    variable (as a set: nothing is said of the order). *)
Theorem initial_node_consistent_domains (crossword : Crossword) (v : Var.t) :
  (is_Some (enforce_node_consistency (init_domains crossword) !! v)
   ↔ v ∈ variables crossword)
  ∧ ∀ w, w ∈ words_of (enforce_node_consistency (init_domains crossword)) v
         ↔ v ∈ variables crossword
           ∧ w ∈ words crossword
           ∧ String.length w = Var.length v.
Proof.
  unfold words_of. rewrite enforce_node_consistency_lookup.
  destruct (decide (v ∈ variables crossword)) as [Hv|Hv].
  - rewrite init_domains_lookup by done. simpl. split; [split; eauto|].
    intros w. rewrite list_elem_of_filter. tauto.
  - unfold init_domains. rewrite not_elem_of_list_to_map_1.
    + simpl. split; [split; [by intros [? [=]]|done]|].
      intros w. rewrite elem_of_nil. tauto.
    + rewrite <- list_fmap_compose.
      by intros (v' & -> & Hin)%list_elem_of_fmap.
Qed.

(** X2. Node consistency is idempotent: enforcing it a second time changes
    no domain. *)
Theorem enforce_node_consistency_idempotent (domains : gmap Var.t (list str)) :
  enforce_node_consistency (enforce_node_consistency domains)
  = enforce_node_consistency domains.
Proof.
  apply map_eq. intros v. rewrite !enforce_node_consistency_lookup.
  destruct (domains !! v) as [dv|]; [|done]. simpl. f_equal.
  apply filter_all, Forall_forall. by intros w [? _]%list_elem_of_filter.
Qed.

(** ** Revising twice *)

Section ReviseTwice.

Context (crossword : Crossword).
Implicit Types (domains : gmap Var.t (list str)).

Lemma revise_loop_words i j y domains dx :
  ∀ rm rev r,
    revise_loop i j y domains dx rm rev = Ok r →
    Forall (λ w, ∃ dy b, domains !! y = Some dy
                       ∧ any_match w i j dy = Ok b) dx.
Proof.
  induction dx as [|word_x dx IH]; intros rm rev r H; simpl in H;
    [constructor|].
  bind_inv H. bind_inv H. apply domain_get_Ok in Hstep.
  constructor; [eauto|]. destruct a0; eauto.
Qed.

Lemma revise_loop_supported i j y domains dy dx :
  domains !! y = Some dy →
  Forall (λ w, any_match w i j dy = Ok true) dx →
  ∀ rm rev, revise_loop i j y domains dx rm rev = Ok (rm, rev).
Proof.
  intros Hdy. induction 1 as [|word_x dx Hw _ IH]; intros rm rev; simpl;
    [done|].
  unfold domain_get. rewrite Hdy. simpl. rewrite Hw. simpl. apply IH.
Qed.

(** X3. A second [revise(x, y)] right after the first finds nothing to
    remove: for distinct [x] and [y] it returns False and leaves the
    domains as the first call left them. *)
Theorem revise_twice x y domains domains' b :
  x ≠ y →
  revise crossword x y domains = Ok (b, domains') →
  revise crossword x y domains' = Ok (false, domains').
Proof.
  intros Hne H. destruct (overlaps crossword x y) as [[i j]|] eqn:Ho.
  2:{ apply revise_no_overlap in H as [_ ->]; [|done].
      unfold revise. by rewrite Ho. }
  pose proof (revise_overlap _ _ _ _ _ _ _ _ Ho H) as (dx & Hdx & -> & _).
  unfold revise in H |- *. rewrite Ho in H |- *.
  unfold domain_get in H |- *. rewrite Hdx in H. simpl in H.
  rewrite lookup_insert_eq. simpl.
  bind_inv H. apply revise_loop_words in Hstep.
  destruct dx as [|w0 dx0] eqn:Hdx0.
  { simpl. by rewrite insert_insert_eq. }
  rewrite <- Hdx0 in *.
  assert (∃ dy, domains !! y = Some dy) as [dy Hdy].
  { rewrite Hdx0 in Hstep. apply Forall_cons in Hstep as [(dy & _ & ? & _) _].
    eauto. }
  rewrite (revise_loop_supported i j y _ dy).
  - simpl. rewrite insert_insert_eq. do 3 f_equal.
    apply filter_all, Forall_forall. intros w _. apply not_elem_of_nil.
  - by rewrite lookup_insert_ne.
  - apply Forall_forall. intros w [Hs Hw]%list_elem_of_filter.
    rewrite Forall_forall in Hstep.
    destruct (Hstep w Hw) as (dy' & bw & Hdy' & Hm).
    assert (dy' = dy) as -> by congruence.
    rewrite (words_of_Some _ _ _ Hdy) in Hs.
    apply any_match_spec in Hm as Hb. apply Hb in Hs. by subst bw.
Qed.

End ReviseTwice.

(** ** More on [ac3] *)

Section Ac3More.

Context (crossword : Crossword).
Implicit Types (domains : gmap Var.t (list str)).

(** The loop of [ac3] needs no more iterations than the length of the
    queue plus [len(variables)] times the number of words in the domains. *)
Lemma ac3_loop_within :
  overlaps_in_bounds crossword (variables crossword) →
  ∀ fuel queue domains,
    Forall (proper_arc crossword) queue → node_consistent crossword domains →
    List.length queue
      + List.length (variables crossword) * total_words crossword domains
      ≤ fuel →
    ∃ b domains', ac3_loop crossword fuel queue domains = Ok (b, domains').
Proof.
  intros Hb. induction fuel as [|fuel IH]; intros queue domains Hq Hnc Hfuel;
    (destruct queue as [|[x y] queue]; simpl; [eauto|]);
    [simpl in Hfuel; lia|].
  apply Forall_cons in Hq as [Hxy Hq].
  destruct (revise_total crossword x y domains Hb Hnc Hxy)
    as (revised & domains1 & Hr).
  rewrite Hr. simpl.
  pose proof (revise_le _ _ _ _ _ _ Hr) as Hle.
  pose proof (node_consistent_le _ _ _ Hle Hnc) as Hnc1.
  destruct Hxy as (Hx & _). simpl in Hx. destruct revised.
  - destruct (node_consistent_is_Some _ _ _ Hnc1 Hx) as [dx Hdx].
    unfold domain_get. rewrite Hdx. simpl. case_decide; [eauto|].
    apply IH; [|done|].
    + apply Forall_app. split; [done|]. by apply new_arcs_proper.
    + rewrite length_app. pose proof (length_new_arcs crossword x y).
      pose proof (revise_total_words _ _ _ _ _ Hx Hr). simpl in Hfuel. nia.
  - apply revise_false in Hr as ->. apply IH; [done..|]. simpl in Hfuel. lia.
Qed.

(** X4. Termination of [ac3].  On node-consistent domains, with overlap
    indices in bounds and arcs between distinct variables of the instance
    (the default arcs are such), [ac3] raises nothing and returns within
    [len(queue) + len(variables) * (number of words in the domains)]
    iterations of its loop. *)
Theorem ac3_terminates fuel arcs domains :
  overlaps_in_bounds crossword (variables crossword) →
  node_consistent crossword domains →
  (∀ queue, arcs = Some queue → Forall (proper_arc crossword) queue) →
  List.length (default (all_arcs crossword) arcs)
    + List.length (variables crossword) * total_words crossword domains
    ≤ fuel →
  ∃ b domains', ac3 crossword fuel arcs domains = Ok (b, domains').
Proof.
  intros Hb Hnc Harcs Hfuel. unfold ac3. destruct arcs as [queue|]; simpl in *.
  - apply ac3_loop_within; auto.
  - apply ac3_loop_within; auto using all_arcs_proper.
Qed.

Lemma ac3_run_false_emptied (Q : Var.t → Prop) domains0 queue domains domains' :
  (∀ x z, z ∈ neighbors crossword x → Q z) →
  ac3_run crossword queue domains false domains' →
  Forall (λ a, Q a.1) queue →
  domains_le domains domains0 →
  ∃ x, Q x ∧ domains' !! x = Some [] ∧ words_of domains0 x ≠ [].
Proof.
  intros HQ. remember false as b eqn:Hb.
  induction 1 as [| x y queue domains b domains' Hr _ IH
    | x y queue domains domains1 Hr Hdx
    | x y queue domains domains1 dx b domains' Hr _ _ _ IH];
    intros Hq Hle; [done|..].
  - apply Forall_cons in Hq as [_ Hq]. auto.
  - apply Forall_cons in Hq as [Hx _]. exists x. split; [done|].
    split; [done|]. apply revise_true in Hr.
    apply domains_le_alt in Hle as [_ Hle]. specialize (Hle x).
    destruct (words_of domains x) as [|w ws] eqn:Hw; [simpl in Hr; lia|].
    intros Hnil. assert (w ∈ words_of domains0 x) as Hin by (apply Hle; left).
    rewrite Hnil in Hin. by apply elem_of_nil in Hin.
  - apply Forall_cons in Hq as [Hx Hq]. apply IH; [done| |].
    + apply Forall_app. split; [done|]. apply Forall_fmap, Forall_forall.
      intros z [_ Hz]%list_elem_of_filter. simpl. eauto.
    + etrans; [|done]. by eapply revise_le.
Qed.

(** X5. [ac3] returns False only by emptying a domain: at return some
    variable that had words at the call has the empty domain; with the
    default arcs it is a variable of the instance. *)
Theorem ac3_false_emptied fuel arcs domains domains' :
  ac3 crossword fuel arcs domains = Ok (false, domains') →
  ∃ x, domains' !! x = Some []
     ∧ words_of domains x ≠ []
     ∧ (arcs = None → x ∈ variables crossword).
Proof.
  intros H%ac3_loop_run. destruct arcs as [queue|].
  - destruct (ac3_run_false_emptied (λ _, True) domains _ _ _ ltac:(done) H)
      as (x & _ & ? & ?); [by apply Forall_forall|done|].
    exists x. done.
  - destruct (ac3_run_false_emptied (λ x, x ∈ variables crossword) domains _ _ _
                ltac:(by intros x z (? & _)%elem_of_neighbors) H)
      as (x & ? & ? & ?); [|done|by exists x].
    eapply Forall_impl; [apply all_arcs_proper|]. by intros a [? _].
Qed.

(** X6. [ac3] keeps every solution.  On node-consistent domains that
    hold the words of a consistent total assignment, [ac3()] raises
    nothing and returns True (within the budget of X4), and the words of
    that assignment are all still in the domains at return. *)
Theorem ac3_keeps_solutions fuel s domains :
  is_solution crossword s →
  within s domains →
  node_consistent crossword domains →
  List.length (all_arcs crossword)
    + List.length (variables crossword) * total_words crossword domains
    ≤ fuel →
  ∃ domains',
    ac3 crossword fuel None domains = Ok (true, domains')
    ∧ within s domains'.
Proof.
  intros Hs Hwithin Hnc Hfuel.
  destruct (ac3_loop_within (solution_in_bounds crossword s Hs) fuel
              (all_arcs crossword) domains (all_arcs_proper crossword)
              Hnc Hfuel) as (b & domains' & H).
  pose proof H as Hrun%ac3_loop_run.
  assert (within s domains') as Hw'
    by (eapply ac3_run_within; eauto using all_arcs_proper).
  exists domains'. split; [|done]. unfold ac3. rewrite H.
  destruct b; [done|].
  destruct (ac3_run_false crossword _ _ _ Hrun (all_arcs_proper crossword))
    as (x & Hv & Hx).
  destruct (solution_entry crossword s x Hs Hv) as [w Hw].
  apply Hw' in Hw. rewrite (words_of_Some _ _ _ Hx) in Hw.
  by apply elem_of_nil in Hw.
Qed.

Lemma ac3_loop_consistent domains :
  overlaps_in_bounds crossword (variables crossword) →
  node_consistent crossword domains →
  (∀ a, is_arc crossword a → arc_consistent crossword domains a.1 a.2) →
  ∀ queue fuel,
    Forall (is_arc crossword) queue → List.length queue ≤ fuel →
    ac3_loop crossword fuel queue domains = Ok (true, domains).
Proof.
  intros Hb Hnc Hcons. induction queue as [|[x y] queue IH];
    intros fuel Hq Hfuel; [by destruct fuel|].
  apply Forall_cons in Hq as [Hxy Hq]. destruct fuel as [|fuel];
    [simpl in Hfuel; lia|]. simpl.
  destruct (revise_total crossword x y domains Hb Hnc
              (is_arc_proper crossword _ Hxy)) as (b & domains1 & Hr).
  rewrite Hr. simpl. destruct b.
  - destruct (overlaps crossword x y) as [[i j]|] eqn:Ho.
    + destruct (revise_overlap _ _ _ _ _ _ _ _ Ho Hr) as (dx & Hdx & _ & Hrev).
      destruct Hrev as [Hrev _]. specialize (Hrev eq_refl).
      apply Exists_exists in Hrev as (w & Hw & Hns).
      specialize (Hcons (x, y) Hxy i j Ho). simpl in Hcons.
      rewrite (words_of_Some _ _ _ Hdx), Forall_forall in Hcons.
      by destruct Hns; apply Hcons.
    + by apply revise_no_overlap in Hr as [[=] _].
  - apply revise_false in Hr as ->. apply IH; [done|]. simpl in Hfuel. lia.
Qed.

(** X7. [ac3] is idempotent: after [ac3()] has returned True, a second
    [ac3()] on the resulting domains returns True and changes nothing. *)
Theorem ac3_idempotent fuel fuel' domains domains' :
  symmetric_overlaps crossword →
  overlaps_in_bounds crossword (variables crossword) →
  node_consistent crossword domains →
  ac3 crossword fuel None domains = Ok (true, domains') →
  List.length (all_arcs crossword) ≤ fuel' →
  ac3 crossword fuel' None domains' = Ok (true, domains').
Proof.
  intros Hsym Hb Hnc H%ac3_loop_run Hfuel. unfold ac3.
  apply ac3_loop_consistent; [done| | | |done].
  - eapply node_consistent_le; [by eapply ac3_run_le|done].
  - apply (ac3_run_sound crossword _ _ _ _ Hsym H eq_refl).
    + apply Forall_forall. intros a. apply elem_of_all_arcs.
    + intros a Ha. left. by apply elem_of_all_arcs.
  - apply Forall_forall. intros a. apply elem_of_all_arcs.
Qed.

End Ac3More.

(** ** The value orderer sorts by the number of ruled-out values *)

From stdpp Require Import sorting.

(** The words of [dn] whose [j]-th letter differs from the [i]-th letter
    of [word]. *)
Definition conflicts (word : str) (i j : nat) (dn : list str) : nat :=
  List.length (filter (λ w', ¬ letters_agree word i w' j) dn).

Lemma count_conflicts_spec word i j dn :
  ∀ count c,
    count_conflicts word i j dn count = Ok c →
    c = count + conflicts word i j dn.
Proof.
  unfold conflicts. induction dn as [|w' dn IH]; intros count c H; simpl in H.
  - injection H as <-. simpl. lia.
  - bind_inv H. bind_inv H. apply str_index_Ok in Hstep, Hstep0.
    apply IH in H as ->. rewrite filter_cons.
    destruct (decide (a ≠ a0)) as [Hd|Hd].
    + rewrite decide_True; [simpl; lia|].
      intros (ch & ? & ?). congruence.
    + apply dec_stable in Hd as ->. rewrite decide_False; [lia|].
      intros Hn. apply Hn. by exists a0.
Qed.

Lemma insert_by_key_sorted {A} (x : nat * A) l :
  StronglySorted (λ y z, y.1 ≤ z.1) l →
  StronglySorted (λ y z, y.1 ≤ z.1) (insert_by_key x l).
Proof.
  induction 1 as [|y l Hl IH Hy]; simpl; [repeat constructor|].
  case_decide as Hxy.
  - constructor; [by constructor|]. constructor; [done|].
    eapply Forall_impl; [done|]. simpl. lia.
  - constructor; [done|]. rewrite insert_by_key_perm.
    constructor; [lia|done].
Qed.

Lemma sort_by_key_sorted {A} (l : list (nat * A)) :
  StronglySorted (λ y z, y.1 ≤ z.1) (sort_by_key l).
Proof.
  induction l as [|x l IH]; simpl; [constructor|].
  by apply insert_by_key_sorted.
Qed.

Lemma sorted_keys_values {A} (f : A → nat) (l : list (nat * A)) :
  StronglySorted (λ y z, y.1 ≤ z.1) l →
  Forall (λ y, y.1 = f y.2) l →
  StronglySorted (λ a b, f a ≤ f b) (l.*2).
Proof.
  induction 1 as [|y l Hl IH Hy]; intros Hf; simpl; [constructor|].
  apply Forall_cons in Hf as [Hfy Hf]. constructor; [auto|].
  rewrite Forall_fmap. rewrite Forall_forall in *. intros z Hz. simpl.
  rewrite <- Hfy, <- (Hf z Hz). auto.
Qed.

Section OrderSorted.

Context (crossword : Crossword).
Implicit Types (domains : gmap Var.t (list str)).

(** The number of values a word of [var] rules out: over the unassigned
    neighbours with an overlap, the words of the neighbour's domain that
    differ from it on the shared letter. *)
Definition ruled_out (var : Var.t) (assignment : list (Var.t * str))
    domains (word : str) : nat :=
  sum_list_with
    (λ n, match overlaps crossword var n with
          | Some (i, j) => conflicts word i j (words_of domains n)
          | None => 0
          end)
    (filter (λ n, n ∉ dict_keys assignment) (neighbors crossword var)).

Lemma count_ruled_out_spec var word domains ns :
  ∀ count c,
    count_ruled_out crossword var word domains ns count = Ok c →
    c = count
        + sum_list_with
            (λ n, match overlaps crossword var n with
                  | Some (i, j) => conflicts word i j (words_of domains n)
                  | None => 0
                  end) ns.
Proof.
  induction ns as [|n ns IH]; intros count c H; simpl in H.
  - injection H as <-. simpl. lia.
  - simpl. destruct (overlaps crossword var n) as [[i j]|].
    + bind_inv H. bind_inv H. apply domain_get_Ok in Hstep.
      apply count_conflicts_spec in Hstep0 as ->. apply IH in H as ->.
      rewrite (words_of_Some _ _ _ Hstep). lia.
    + apply IH in H as ->. lia.
Qed.

Lemma fill_constraints_spec var assignment domains dv :
  ∀ constraints constraints',
    fill_constraints crossword var domains
      (filter (λ n, n ∉ dict_keys assignment) (neighbors crossword var))
      dv constraints = Ok constraints' →
    (∀ w k, constraints !! w = Some k →
            k = ruled_out var assignment domains w) →
    (∀ w k, constraints' !! w = Some k →
            k = ruled_out var assignment domains w).
Proof.
  induction dv as [|word dv IH]; intros constraints constraints' H Hc;
    simpl in H.
  - by injection H as <-.
  - bind_inv H. apply count_ruled_out_spec in Hstep. simpl in Hstep.
    eapply IH; [done|]. intros w k.
    destruct (decide (word = w)) as [->|Hne].
    + rewrite lookup_insert_eq. intros [= <-]. done.
    + rewrite lookup_insert_ne by done. apply Hc.
Qed.

Lemma constraint_keys_spec (f : str → nat) (constraints : gmap str nat) dv :
  (∀ w k, constraints !! w = Some k → k = f w) →
  ∀ keyed, constraint_keys constraints dv = Ok keyed →
    Forall (λ y, y.1 = f y.2) keyed.
Proof.
  intros Hc. induction dv as [|word dv IH]; intros keyed H; simpl in H.
  - injection H as <-. constructor.
  - bind_inv H. bind_inv H. injection H as <-.
    apply or_raise_Ok in Hstep. constructor; [by apply Hc|auto].
Qed.

(** X8. [order_domain_values] returns the words of the domain of [var],
    each once as in the domain, ordered by the number of values they rule
    out for the unassigned neighbours, fewest first. *)
Theorem order_domain_values_sorted var assignment domains values :
  order_domain_values crossword var assignment domains = Ok values →
  ∃ dv, domains !! var = Some dv
      ∧ values ≡ₚ dv
      ∧ StronglySorted
          (λ w1 w2, ruled_out var assignment domains w1
                    ≤ ruled_out var assignment domains w2) values.
Proof.
  intros H. pose proof (order_domain_values_perm _ _ _ _ _ H)
    as (dv & Hdv & Hperm).
  exists dv. split; [done|]. split; [done|].
  unfold order_domain_values in H. bind_inv H. bind_inv H. bind_inv H.
  bind_inv H. injection H as <-.
  apply sorted_keys_values; [apply sort_by_key_sorted|].
  rewrite sort_by_key_perm.
  eapply constraint_keys_spec; [|done].
  eapply fill_constraints_spec; [done|]. intros w k. by rewrite lookup_empty.
Qed.

End OrderSorted.

(** ** More on [backtrack] and [solve] *)

Section SearchMore.

Context (crossword : Crossword).
Implicit Types (assignment : list (Var.t * str)) (domains : gmap Var.t (list str)).

(** [result] is [assignment] followed by entries for variables that
    [assignment] leaves open, each with a word of the variable's domain. *)
Definition extends domains assignment (result : list (Var.t * str)) : Prop :=
  ∃ added,
    result = assignment ++ added
    ∧ Forall (λ vw, vw.1 ∈ variables crossword
                  ∧ (vw.1 ∉ dict_keys assignment)
                  ∧ vw.2 ∈ words_of domains vw.1) added.

Lemma extends_snoc domains assignment var value result :
  var ∈ variables crossword → var ∉ dict_keys assignment →
  value ∈ words_of domains var →
  extends domains (assignment ++ [(var, value)]) result →
  extends domains assignment result.
Proof.
  intros Hvar Hfresh Hvalue (added & -> & Hadded).
  exists ((var, value) :: added). split; [by rewrite <- app_assoc|].
  constructor; [done|]. eapply Forall_impl; [done|].
  intros [v w] (? & Hv & ?). simpl in *. split; [done|]. split; [|done].
  intros Hin. apply Hv. rewrite dict_keys_snoc. apply elem_of_app. by left.
Qed.

Lemma backtrack_values_extends recurse domains var assignment :
  (∀ a1 r1, recurse a1 = Ok r1 → backtrack_post crossword domains a1 r1) →
  (∀ a1 r1 result, recurse a1 = Ok r1 → returned r1 = Some result →
     extends domains a1 result) →
  var ∈ variables crossword → var ∉ dict_keys assignment →
  ∀ values calls r result,
    (∀ value, value ∈ values → value ∈ words_of domains var) →
    backtrack_values crossword recurse var values assignment calls = Ok r →
    returned r = Some result →
    extends domains assignment result.
Proof.
  intros Hpost Hrec Hvar Hfresh.
  induction values as [|value values IH]; intros calls r result Hvals H Hret;
    simpl in H.
  - injection H as <-. done.
  - rewrite dict_set_fresh in H by done.
    assert (∀ value, value ∈ values → value ∈ words_of domains var) as Hvals'
      by (intros; apply Hvals; by right).
    bind_inv H. destruct a as [|].
    + bind_inv H. pose proof (Hpost _ _ Hstep0) as Hp.
      unfold backtrack_post in Hp.
      destruct (returned a) as [res|] eqn:Hres.
      * injection H as <-. simpl in Hret. injection Hret as <-.
        eapply extends_snoc; [done..| |by eapply Hrec].
        apply Hvals. left.
      * rewrite Hp, dict_del_fresh in H by done. simpl in H. eauto.
    + rewrite dict_del_fresh in H by done. simpl in H. eauto.
Qed.

(** X10. [backtrack] only adds to the assignment it is given: a returned
    assignment keeps the entries of the call, in their order, followed by
    entries for variables that were unassigned, each with a word from the
    domain of its variable. *)
Theorem backtrack_extends fuel domains assignment r result :
  backtrack crossword fuel domains assignment = Ok r →
  returned r = Some result →
  extends domains assignment result.
Proof.
  revert assignment r result.
  induction fuel as [|fuel IH]; intros assignment r result H Hret;
    simpl in H; [done|].
  destruct (assignment_complete crossword assignment).
  - injection H as <-. injection Hret as <-. exists [].
    split; [by rewrite app_nil_r|constructor].
  - bind_inv H. destruct a as [var|]; [|done]. bind_inv H.
    apply select_unassigned_variable_Some in Hstep as [Hvar Hfresh].
    apply order_domain_values_perm in Hstep0 as (dv & Hdv & Hperm).
    eapply backtrack_values_extends;
      [apply backtrack_post_holds|apply IH|done..| |done|done].
    intros value Hvalue. rewrite (words_of_Some _ _ _ Hdv). by rewrite <- Hperm.
Qed.

(** X11. Completeness of [backtrack] on partial assignments: called on any
    part of a solution whose words are all in the node-consistent domains,
    with a recursion budget above the number of unassigned variables,
    [backtrack] returns an assignment; it returns None only when no such
    solution contains the assignment. *)
Theorem backtrack_finds_extension fuel domains s assignment :
  is_solution crossword s → within s domains →
  node_consistent crossword domains →
  assignment ⊆ s → NoDup (dict_keys assignment) →
  List.length (unassigned crossword assignment) < fuel →
  ∃ r result, backtrack crossword fuel domains assignment = Ok r
            ∧ returned r = Some result.
Proof. intros. by eapply backtrack_complete. Qed.

Lemma solve_result_is_solution fuel sol result :
  create_and_solve crossword fuel = Ok sol →
  solution sol = Some result →
  is_solution crossword result.
Proof.
  intros Hsol Hres.
  destruct (solve_result_sound _ _ _ _ _ Hsol Hres)
    as (Hall & Helem & Hnd & _ & Hspec).
  split; [done|]. split; [|split; [|done]].
  - intros v. split.
    + intros ([v' w] & -> & Hin)%list_elem_of_fmap. by apply Helem in Hin as [? _].
    + intros [w Hw]%Hall. apply list_elem_of_fmap. by exists (v, w).
  - intros v w [Hv Hw]%Helem. unfold words_of in Hw.
    by rewrite init_domains_lookup in Hw.
Qed.

(** X12. [solve] decides the puzzle.  With overlap indices in bounds,
    [CrosswordCreator(crossword).solve()] returns (within [solve_fuel],
    raising nothing), and it returns None exactly when no consistent total
    assignment of vocabulary words exists. *)
Theorem solve_decides fuel :
  overlaps_in_bounds crossword (variables crossword) →
  solve_fuel crossword ≤ fuel →
  ∃ sol, create_and_solve crossword fuel = Ok sol
       ∧ (solution sol = None ↔ ¬ ∃ s, is_solution crossword s).
Proof.
  intros Hb Hfuel. destruct (solve_total crossword fuel Hb Hfuel) as [sol Hsol].
  exists sol. split; [done|]. split.
  - intros Hnone [s Hs].
    destruct (solve_finds crossword s fuel Hs Hfuel)
      as (sol' & result & Hsol' & Hres & _). congruence.
  - intros Hno. destruct (solution sol) as [result|] eqn:Hres; [|done].
    destruct Hno. exists result. by eapply solve_result_is_solution.
Qed.

(** X9. [select_unassigned_variable] returns None exactly on the
    assignments [assignment_complete] accepts; so [backtrack], which
    selects only after [assignment_complete] returned False, never gets
    None as its variable. *)
Theorem select_none_iff_complete assignment domains :
  select_unassigned_variable crossword assignment domains = Ok None
  ↔ assignment_complete crossword assignment = true.
Proof.
  by rewrite select_unassigned_variable_None, assignment_complete_true.
Qed.

(** ** More on [consistent] *)

Lemma NoDup_values_sub assignment assignment' :
  NoDup (dict_values assignment) → NoDup (dict_keys assignment') →
  assignment' ⊆ assignment →
  NoDup (dict_values assignment').
Proof.
  intros Hnd Hnd' Hsub. unfold dict_values. apply NoDup_fmap_2_strong.
  - intros [v1 w1] [v2 w2] H1%Hsub H2%Hsub Heq. simpl in Heq. subst w2.
    f_equal. destruct (decide (v1 = v2)) as [|Hne]; [done|].
    apply list_elem_of_lookup in H1 as [i1 Hi1], H2 as [i2 Hi2].
    assert (i1 = i2) as ->; [|congruence].
    apply (NoDup_lookup _ _ _ w1 Hnd);
      unfold dict_values; rewrite list_lookup_fmap; [by rewrite Hi1|by rewrite Hi2].
  - by eapply NoDup_fmap_1.
Qed.

(** X13. Consistency is kept when entries are removed: every part of an
    assignment that [consistent] accepts is accepted too. *)
Theorem consistent_sub_assignment assignment assignment' :
  NoDup (dict_keys assignment) → NoDup (dict_keys assignment') →
  assignment' ⊆ assignment →
  consistent crossword assignment = Ok true →
  consistent crossword assignment' = Ok true.
Proof.
  intros Hnd Hnd' Hsub H. apply consistent_true_iff in H; [|done].
  destruct H as (Hvals & Hlen & Hagree).
  apply consistent_true_iff; [done|]. split; [|split].
  - by eapply NoDup_values_sub.
  - intros v w Hin. apply Hlen. auto.
  - intros v1 w1 v2 w2 i j H1 H2. apply Hagree; auto.
Qed.

(** X14. A word used twice is rejected, overlap or not: when two distinct
    variables are assigned the same word, [consistent] returns False (and
    reads no letter, so it raises nothing). *)
Theorem consistent_rejects_duplicates assignment v1 v2 w :
  v1 ≠ v2 → (v1, w) ∈ assignment → (v2, w) ∈ assignment →
  consistent crossword assignment = Ok false.
Proof.
  intros Hne H1 H2. unfold consistent.
  assert (¬ NoDup (dict_values assignment)) as Hdup.
  { intros Hnd. apply list_elem_of_lookup in H1 as [i1 Hi1], H2 as [i2 Hi2].
    assert (i1 = i2) as ->; [|congruence].
    apply (NoDup_lookup _ _ _ w Hnd);
      unfold dict_values; rewrite list_lookup_fmap; [by rewrite Hi1|by rewrite Hi2]. }
  case_decide as Hlen; [done|]. destruct Hdup.
  apply length_remove_dups_NoDup. unfold dict_values in *.
  rewrite length_fmap in *. lia.
Qed.

End SearchMore.

(** ** Worked examples for the further properties *)

(** Agreement on shared cells can be checked letter by letter. *)
Lemma cells_agree_check (items : list (Var.t * str)) :
  Forall (λ e1, Forall (λ e2,
    Forall (λ k1, Forall (λ k2,
      letter_cell e1.1 k1 = letter_cell e2.1 k2 →
      String.get k1 e1.2 = String.get k2 e2.2)
      (seq 0 (String.length e2.2)))
      (seq 0 (String.length e1.2))) items) items →
  cells_agree items.
Proof.
  rewrite Forall_forall. intros Hall v1 w1 k1 c1 v2 w2 k2 c2 H1 H2 Hcell Hg1 Hg2.
  specialize (Hall _ H1). rewrite Forall_forall in Hall.
  specialize (Hall _ H2). rewrite Forall_forall in Hall. simpl in Hall.
  assert (k1 < String.length w1) as Hk1 by (apply get_Some_lt; eauto).
  assert (k2 < String.length w2) as Hk2 by (apply get_Some_lt; eauto).
  specialize (Hall k1 ltac:(apply elem_of_seq; lia)).
  rewrite Forall_forall in Hall.
  specialize (Hall k2 ltac:(apply elem_of_seq; lia) Hcell). congruence.
Qed.

Lemma sample_within :
  within [(Samples.A, "CAR"); (Samples.B, "ART")]%string cat_car_art_domains.
Proof.
  intros v w [[= -> ->]|[[= -> ->]|[]%elem_of_nil]%elem_of_cons]%elem_of_cons;
    compute_done.
Qed.

Lemma sample_solution :
  is_solution Samples.cat_car_art
    [(Samples.A, "CAR"); (Samples.B, "ART")]%string.
Proof. apply is_solution_intro; [compute_done..|vm_compute; reflexivity]. Qed.

Lemma sample_in_bounds (cw : Crossword) :
  variables cw = [Samples.A; Samples.B] →
  overlaps cw = Samples.cross_overlaps →
  overlaps_in_bounds cw (variables cw).
Proof. intros Hv Ho. apply cross_in_bounds; [by rewrite Hv|done]. Qed.

Lemma letter_grid_read_back_witness :
  letter_grid 3 3 [(Samples.A, "CAT"); (Samples.B, "ART")]%string
    = Ok [[Some "C"; Some "A"; Some "T"];
          [None; Some "R"; None];
          [None; Some "T"; None]]%char
  ∧ cells_agree [(Samples.A, "CAT"); (Samples.B, "ART")]%string
  ∧ grid_at [[Some "C"; Some "A"; Some "T"];
             [None; Some "R"; None];
             [None; Some "T"; None]]%char
      (letter_cell Samples.B 2).1 (letter_cell Samples.B 2).2
    = Some (Some "T"%char).
Proof.
  assert (cells_agree [(Samples.A, "CAT"); (Samples.B, "ART")]%string) as Hagree
    by (apply cells_agree_check; compute_done).
  assert (letter_grid 3 3 [(Samples.A, "CAT"); (Samples.B, "ART")]%string
          = Ok [[Some "C"; Some "A"; Some "T"];
                [None; Some "R"; None];
                [None; Some "T"; None]]%char) as Hgrid
    by (vm_compute; reflexivity).
  split; [exact Hgrid|]. split; [exact Hagree|].
  destruct (letter_grid_read_back 3 3 _ _ Hgrid Hagree) as [Hread _].
  apply (Hread Samples.B "ART"%string 2 "T"%char); [compute_done|reflexivity].
Defined.

Lemma letter_grid_last_wins_witness :
  ∃ letters,
    letter_grid 3 3 ([(Samples.A, "CAT"%string)]
                     ++ (Samples.B, "ORT"%string) :: []) = Ok letters
    ∧ grid_at letters (letter_cell Samples.B 0).1 (letter_cell Samples.B 0).2
      = Some (Some "O"%char).
Proof.
  eexists. split; [vm_compute; reflexivity|].
  eapply (letter_grid_last_wins 3 3 [(Samples.A, "CAT"%string)] Samples.B
            "ORT"%string [] _ 0).
  - vm_compute. reflexivity.
  - reflexivity.
  - by intros v w k' ?%elem_of_nil.
Defined.

Lemma revise_twice_witness :
  Samples.B ≠ Samples.A
  ∧ revise Samples.cat_car_art Samples.B Samples.A cat_car_art_domains
    = Ok (true, <[Samples.B := ["ART"]%string]> cat_car_art_domains)
  ∧ revise Samples.cat_car_art Samples.B Samples.A
      (<[Samples.B := ["ART"]%string]> cat_car_art_domains)
    = Ok (false, <[Samples.B := ["ART"]%string]> cat_car_art_domains).
Proof.
  assert (Samples.B ≠ Samples.A) as Hne by compute_done.
  split; [exact Hne|]. split; [vm_compute; reflexivity|].
  apply (revise_twice Samples.cat_car_art Samples.B Samples.A
           cat_car_art_domains _ true Hne).
  vm_compute. reflexivity.
Defined.

Lemma ac3_terminates_witness :
  overlaps_in_bounds Samples.cat_car_art (variables Samples.cat_car_art)
  ∧ node_consistent Samples.cat_car_art cat_car_art_domains
  ∧ List.length (all_arcs Samples.cat_car_art)
    + List.length (variables Samples.cat_car_art)
      * total_words Samples.cat_car_art cat_car_art_domains = 14
  ∧ ∃ b domains',
      ac3 Samples.cat_car_art 14 None cat_car_art_domains = Ok (b, domains').
Proof.
  assert (overlaps_in_bounds Samples.cat_car_art
            (variables Samples.cat_car_art)) as Hb
    by (by apply sample_in_bounds).
  assert (node_consistent Samples.cat_car_art cat_car_art_domains) as Hnc
    by apply init_node_consistent.
  split; [exact Hb|]. split; [exact Hnc|]. split; [vm_compute; reflexivity|].
  apply (ac3_terminates Samples.cat_car_art 14 None cat_car_art_domains Hb Hnc).
  - intros queue [=].
  - vm_compute. lia.
Defined.

Lemma ac3_false_emptied_witness :
  ∃ domains',
    ac3 Samples.cat_dog 20 None cat_dog_domains = Ok (false, domains')
    ∧ ∃ x, domains' !! x = Some []
         ∧ words_of cat_dog_domains x ≠ []
         ∧ (@None (list (Var.t * Var.t)) = None → x ∈ variables Samples.cat_dog).
Proof.
  eexists. split; [vm_compute; reflexivity|].
  apply (ac3_false_emptied Samples.cat_dog 20 None cat_dog_domains).
  vm_compute. reflexivity.
Defined.

Lemma ac3_keeps_solutions_witness :
  is_solution Samples.cat_car_art
    [(Samples.A, "CAR"); (Samples.B, "ART")]%string
  ∧ within [(Samples.A, "CAR"); (Samples.B, "ART")]%string cat_car_art_domains
  ∧ ∃ domains',
      ac3 Samples.cat_car_art 14 None cat_car_art_domains = Ok (true, domains')
      ∧ within [(Samples.A, "CAR"); (Samples.B, "ART")]%string domains'.
Proof.
  split; [exact sample_solution|]. split; [exact sample_within|].
  apply (ac3_keeps_solutions Samples.cat_car_art 14 _ cat_car_art_domains
           sample_solution sample_within).
  - apply init_node_consistent.
  - vm_compute. lia.
Defined.

Lemma ac3_idempotent_witness :
  ∃ domains',
    ac3 Samples.cat_car_art 20 None cat_car_art_domains = Ok (true, domains')
    ∧ ac3 Samples.cat_car_art 2 None domains' = Ok (true, domains').
Proof.
  eexists. split; [vm_compute; reflexivity|].
  apply (ac3_idempotent Samples.cat_car_art 20 2 cat_car_art_domains).
  - by apply cross_symmetric.
  - by apply sample_in_bounds.
  - apply init_node_consistent.
  - vm_compute. reflexivity.
  - vm_compute. lia.
Defined.

Lemma order_domain_values_sorted_witness :
  order_domain_values Samples.cat_car_art Samples.B [] cat_car_art_domains
    = Ok ["ART"; "CAT"; "CAR"]%string
  ∧ ∃ dv, cat_car_art_domains !! Samples.B = Some dv
        ∧ ["ART"; "CAT"; "CAR"]%string ≡ₚ dv
        ∧ StronglySorted
            (λ w1 w2,
               ruled_out Samples.cat_car_art Samples.B [] cat_car_art_domains w1
               ≤ ruled_out Samples.cat_car_art Samples.B [] cat_car_art_domains
                   w2)
            ["ART"; "CAT"; "CAR"]%string.
Proof.
  split; [vm_compute; reflexivity|].
  apply (order_domain_values_sorted Samples.cat_car_art Samples.B []
           cat_car_art_domains).
  vm_compute. reflexivity.
Defined.

Lemma backtrack_extends_witness :
  ∃ r,
    backtrack Samples.cat_car_art 5 cat_car_art_domains
      [(Samples.B, "ART"%string)] = Ok r
    ∧ returned r = Some [(Samples.B, "ART"); (Samples.A, "CAT")]%string
    ∧ extends Samples.cat_car_art cat_car_art_domains
        [(Samples.B, "ART"%string)]
        [(Samples.B, "ART"); (Samples.A, "CAT")]%string.
Proof.
  eexists. split; [vm_compute; reflexivity|]. split; [reflexivity|].
  eapply (backtrack_extends Samples.cat_car_art 5 cat_car_art_domains).
  - vm_compute. reflexivity.
  - reflexivity.
Defined.

Lemma backtrack_finds_extension_witness :
  [(Samples.B, "ART"%string)] ⊆ [(Samples.A, "CAR"); (Samples.B, "ART")]%string
  ∧ ∃ r result,
      backtrack Samples.cat_car_art 2 cat_car_art_domains
        [(Samples.B, "ART"%string)] = Ok r
      ∧ returned r = Some result.
Proof.
  assert ([(Samples.B, "ART"%string)]
          ⊆ [(Samples.A, "CAR"); (Samples.B, "ART")]%string) as Hsub.
  { intros p ->%list_elem_of_singleton. compute_done. }
  split; [exact Hsub|].
  apply (backtrack_finds_extension Samples.cat_car_art 2 cat_car_art_domains
           [(Samples.A, "CAR"); (Samples.B, "ART")]%string
           [(Samples.B, "ART"%string)] sample_solution sample_within).
  - apply init_node_consistent.
  - exact Hsub.
  - compute_done.
  - vm_compute. lia.
Defined.

Lemma solve_decides_witness :
  overlaps_in_bounds Samples.cat_dog (variables Samples.cat_dog)
  ∧ ∃ sol,
      create_and_solve Samples.cat_dog (solve_fuel Samples.cat_dog) = Ok sol
      ∧ (solution sol = None ↔ ¬ ∃ s, is_solution Samples.cat_dog s).
Proof.
  assert (overlaps_in_bounds Samples.cat_dog (variables Samples.cat_dog)) as Hb
    by (by apply sample_in_bounds).
  split; [exact Hb|].
  apply (solve_decides Samples.cat_dog (solve_fuel Samples.cat_dog) Hb).
  reflexivity.
Defined.

Lemma consistent_sub_assignment_witness :
  consistent Samples.cat_car_art
    [(Samples.A, "CAT"); (Samples.B, "ART")]%string = Ok true
  ∧ consistent Samples.cat_car_art [(Samples.B, "ART"%string)] = Ok true.
Proof.
  split; [vm_compute; reflexivity|].
  apply (consistent_sub_assignment Samples.cat_car_art
           [(Samples.A, "CAT"); (Samples.B, "ART")]%string
           [(Samples.B, "ART"%string)]).
  - compute_done.
  - compute_done.
  - intros p ->%list_elem_of_singleton. compute_done.
  - vm_compute. reflexivity.
Defined.

Lemma consistent_rejects_duplicates_witness :
  Samples.A ≠ Samples.B
  ∧ consistent Samples.cat_car_art
      [(Samples.A, "CAT"); (Samples.B, "CAT")]%string = Ok false.
Proof.
  assert (Samples.A ≠ Samples.B) as Hne by compute_done.
  split; [exact Hne|].
  apply (consistent_rejects_duplicates Samples.cat_car_art _ Samples.A
           Samples.B "CAT"%string Hne); compute_done.
Defined.
